(** * goLogger: a structured-log fan-out layer

    A shallow embedding of [logger.go]: the New Relic sink ([SendLog]), the
    fan-out handler ([customHandler]), the logger built by [New] together
    with its two background loops, and the error counter
    ([targetLogCounter]).

    Conventions.
    - Go's [int] is a [Z] kept in the 64-bit signed range, [++] and [--]
      wrap around ([wrap_int]).
    - An [error] is [option string]; [None] is Go's [nil].
    - [map[string]interface{}] is a [gmap string any].
    - What the package calls in the Go standard library and cannot be read
      from [logger.go] (the HTTP client, the JSON encoder, the frame resolver,
      the writer) is a [Variable] of the section that uses it.
    - Goroutines are entries of a pool in the [World]; the scheduler is the
      step relation [step]. *)

From Stdlib Require Import ZArith Lia.
From stdpp Require Import gmap strings list fin_maps pretty.

#[local] Open Scope Z_scope.

(** ** Go's [int] and [error] *)

Module GoInt.

Definition int_min : Z := - 2 ^ 63.
Definition int_max : Z := 2 ^ 63 - 1.

Definition is_int (z : Z) : Prop := int_min <= z <= int_max.

(** Two's complement wrap-around of a 64-bit signed integer. *)
Definition wrap_int (z : Z) : Z := (z + 2 ^ 63) mod 2 ^ 64 - 2 ^ 63.

End GoInt.
Export GoInt.

(** Go's [error] interface value: [None] is [nil], [Some msg] an error whose
    [Error()] text is [msg]. *)
Abbreviation error := (option string).

(** [fmt.Errorf("unexpected status code: %d", code)] *)
Definition Errorf_status (code : Z) : error :=
  Some ("unexpected status code: " +:+ pretty code).

(** ** Records of [log/slog] *)

Record time := { unix_sec : Z; unix_nsec : Z }.

(** [time.Time.Unix]: seconds since the epoch. *)
Definition Time_Unix (t : time) : Z := unix_sec t.

#[local] Unset Elimination Schemes.

(** Go's [any], as far as a log payload holds it, and [slog.Value], one
    constructor per [slog.Kind]. *)
Inductive any : Type :=
  | AnyNil
  | AnyBool (b : bool)
  | AnyInt (n : Z)
  | AnyInt64 (n : Z)
  | AnyUint64 (n : Z)
  | AnyFloat64 (bits : Z)
  | AnyString (s : string)
  | AnyTime (t : time)
  | AnyDuration (d : Z)
  | AnyError (e : error)
  | AnyMap (m : gmap string any)
  | AnyAttrs (l : list (string * Value))
with Value : Type :=
  | KindAny (a : any)
  | KindBool (b : bool)
  | KindDuration (d : Z)
  | KindFloat64 (bits : Z)
  | KindInt64 (n : Z)
  | KindString (s : string)
  | KindTime (t : time)
  | KindUint64 (n : Z)
  | KindGroup (l : list (string * Value))
  | KindLogValuer (a : any).

#[local] Set Elimination Schemes.

(** [slog.Value.Any]: the Go value a [Value] carries. *)
Definition Value_Any (v : Value) : any :=
  match v with
  | KindAny a => a
  | KindBool b => AnyBool b
  | KindDuration d => AnyDuration d
  | KindFloat64 b => AnyFloat64 b
  | KindInt64 n => AnyInt64 n
  | KindString s => AnyString s
  | KindTime t => AnyTime t
  | KindUint64 n => AnyUint64 n
  | KindGroup l => AnyAttrs l
  | KindLogValuer a => a
  end.

Record Attr := { Key : string; Val : Value }.

Definition Level := Z.
Definition LevelDebug : Level := -4.
Definition LevelInfo : Level := 0.
Definition LevelWarn : Level := 4.
Definition LevelError : Level := 8.

(** [slog.Record]: time, message, level, program counter and attributes. *)
Record Record_ := {
  Time : time;
  Message : string;
  Level_ : Level;
  PC : Z;
  attrs : list Attr
}.

Definition NumAttrs (r : Record_) : nat := length (attrs r).

(** [Record.Attrs(f)]: calls [f] on each attribute in order and stops as soon
    as [f] returns [false]. The callback's captured variables are the
    accumulator [s]. *)
Fixpoint Record_Attrs {S : Type} (f : Attr -> S -> S * bool)
    (l : list Attr) (s : S) : S :=
  match l with
  | [] => s
  | a :: l' =>
      let '(s', continue) := f a s in
      if continue then Record_Attrs f l' s' else s'
  end.

(** [slog.Value.isEmptyGroup]: a group value with no attribute. *)
Definition isEmptyGroup (v : Value) : bool :=
  match v with
  | KindGroup [] => true
  | _ => false
  end.

(** [Record.Add] on a new record: the attributes in order, empty groups
    left out. *)
Definition Record_Add (args : list Attr) : list Attr :=
  List.filter (fun a => negb (isEmptyGroup (Val a))) args.

(** The last attribute of key [k], if there is one. *)
Definition last_attr (k : string) (l : list Attr) : option Attr :=
  last (filter (fun a => Key a = k) l).

(** [runtime.Frame], the two fields [SendLog] reads. *)
Record Frame := { Function : string; Line : Z }.

(** ** The New Relic sink *)

Record Request := {
  Method : string;
  URL : string;
  Header : gmap string (list string);
  Body : option string
}.

Record Response := { StatusCode : Z }.

Definition MethodPost : string := "POST".
Definition StatusAccepted : Z := 202.

(** [http.Header.Set] on a key that is already in canonical form. *)
Definition Header_Set (k v : string) (req : Request) : Request :=
  {| Method := Method req; URL := URL req;
     Header := <[k := [v]]> (Header req); Body := Body req |}.

Definition set_Body (b : string) (req : Request) : Request :=
  {| Method := Method req; URL := URL req;
     Header := Header req; Body := Some b |}.

Record newRelicLogger := {
  newRelicEndpoint : string;
  newRelicLicenseKey : string
}.

(** What [SendLog] calls in the Go standard library. *)
Class GoLib := {
  (** [runtime.CallersFrames([]uintptr{pc}).Next()] *)
  CallersFrames_Next : Z -> Frame;
  (** [slog.Level.String] *)
  Level_String : Level -> string;
  (** [http.NewRequest(method, url, nil)] *)
  http_NewRequest : string -> string -> Request * error;
  (** [json.Marshal] on the payload *)
  json_Marshal : gmap string any -> string * error;
  (** [l.client.Do]: the network and the remote endpoint *)
  client_Do : Request -> Response * error
}.

Section NewRelic.

(** [context.Context]; the package only passes it on. *)
Context {Context : Type} `{!GoLib}.

(** Lines 119-130 of [SendLog]: the reserved fields, assigned in order. *)
Definition reserved_fields (r : Record_) : gmap string any :=
  let f := CallersFrames_Next (PC r) in
  let fields : gmap string any := ∅ in
  let fields := <["time" := AnyTime (Time r)]> fields in
  let fields := <["message" := AnyString (Message r)]> fields in
  let fields := <["level" := AnyString (Level_String (Level_ r))]> fields in
  let fields := <["timestamp" := AnyInt64 (Time_Unix (Time r))]> fields in
  let fields := <["logtype" := AnyString "application"]> fields in
  <["source" := AnyMap (<["line" := AnyInt (Line f)]>
                         (<["function" := AnyString (Function f)]> ∅))]> fields.

(** The callback of lines 131-134. *)
Definition add_attr (a : Attr) (fields : gmap string any)
    : gmap string any * bool :=
  (<[Key a := Value_Any (Val a)]> fields, true).

(** Lines 119-134: the payload [fields] that [SendLog] serialises. *)
Definition SendLog_fields (r : Record_) : gmap string any :=
  Record_Attrs add_attr (attrs r) (reserved_fields r).

(** [newRelicLogger.SendLog] *)
Definition SendLog (l : newRelicLogger) (ctx : Context) (r : Record_)
    : error :=
  let fields := SendLog_fields r in
  let '(req, err) := http_NewRequest MethodPost (newRelicEndpoint l) in
  match err with
  | Some _ => err
  | None =>
      let req := Header_Set "Content-Type" "application/json" req in
      let req := Header_Set "Api-Key" (newRelicLicenseKey l) req in
      let '(jsonFields, err) := json_Marshal fields in
      match err with
      | Some _ => err
      | None =>
          let req := set_Body jsonFields req in
          let '(resp, err) := client_Do req in
          match err with
          | Some _ => err
          | None =>
              if decide (StatusCode resp ≠ StatusAccepted)
              then Errorf_status (StatusCode resp)
              else None
          end
      end
  end.

(** The request [SendLog] hands to the client once it was built and the
    payload was serialised. *)
Definition SendLog_request (l : newRelicLogger) (r : Record_) : Request :=
  set_Body (json_Marshal (SendLog_fields r)).1
    (Header_Set "Api-Key" (newRelicLicenseKey l)
       (Header_Set "Content-Type" "application/json"
          (http_NewRequest MethodPost (newRelicEndpoint l)).1)).

End NewRelic.

(** ** Handlers, channels and goroutines *)

(** The [slog.Handler] interface. [S] is the state a handler's [Handle]
    works on. *)
Class Handler (Context H S : Type) := {
  Enabled : H -> Context -> Level -> bool;
  Handle : H -> Context -> Record_ -> S -> S * error;
  WithAttrs : H -> list Attr -> H;
  WithGroup : H -> string -> H
}.

(** The [LogTarget] interface. *)
Record LogTarget (Context : Type) := {
  target_SendLog : Context -> Record_ -> error
}.
Arguments target_SendLog {Context} _ _ _.

(** [NewNewRelicLogger]: the sink as a [LogTarget]. The [http.Client] it
    creates is the [client_Do] of [GoLib]. *)
Definition NewNewRelicLogger {Context : Type} `{!GoLib}
    (endpoint licenseKey : string) : LogTarget Context :=
  {| target_SendLog :=
       SendLog {| newRelicEndpoint := endpoint;
                  newRelicLicenseKey := licenseKey |} |}.

(** A channel handle as [make] returns it. *)
Record chan := { chan_id : nat; chan_cap : nat }.

#[global] Instance chan_eq_dec : EqDecision chan.
Proof. solve_decision. Defined.

(** [make(chan error)]: no capacity argument, so the channel is unbuffered. *)
Definition make_chan (id : nat) : chan := {| chan_id := id; chan_cap := 0 |}.

(** [customHandler] *)
Record customHandler (Context H : Type) := {
  handler : H;
  logTargets : option (list (LogTarget Context));
  errorChannel : chan
}.
Arguments handler {Context H} _.
Arguments logTargets {Context H} _.
Arguments errorChannel {Context H} _.

(** A goroutine started by [Handle] (lines 67-72): before [target.SendLog]
    has returned, or at the send [h.errorChannel <- err]. A goroutine that
    has finished is removed from the pool. *)
Inductive Task (Context : Type) :=
  | Sending (target : LogTarget Context) (ctx : Context) (r : Record_)
      (ch : chan)
  | Pushing (ch : chan) (err : error).
Arguments Sending {Context} _ _ _ _.
Arguments Pushing {Context} _ _.

(** The goroutine of lines 37-47, by the statement it is at. *)
Inductive ConsumerPC :=
  | Receiving
  | Got (err : error)
  | Checked (err : error)
  | Logged.

#[global] Instance ConsumerPC_eq_dec : EqDecision ConsumerPC.
Proof. solve_decision. Defined.

(** The goroutine of lines 169-176, by the statement it is at. *)
Inductive DecayPC := DecayCheck | DecayDec | DecaySleep.

#[global] Instance DecayPC_eq_dec : EqDecision DecayPC.
Proof. solve_decision. Defined.

(** Everything a logger built by [New] owns. [writer] is the state behind
    the [io.Writer]; [base_calls] and [pushed] are history: the records
    handed to the base handler and the errors that went through the error
    channel, oldest first. *)
Record World (Context W : Type) := {
  writer : W;
  base_calls : list Record_;
  goroutines : list (Task Context);
  chan_buf : list error;
  pushed : list error;
  counter : Z;
  consumer : ConsumerPC;
  decay : DecayPC
}.
Arguments writer {Context W} _.
Arguments base_calls {Context W} _.
Arguments goroutines {Context W} _.
Arguments chan_buf {Context W} _.
Arguments pushed {Context W} _.
Arguments counter {Context W} _.
Arguments consumer {Context W} _.
Arguments decay {Context W} _.

(** [slog.HandlerOptions]; a nil [Level] is [None], [ReplaceAttr] stays
    nil. *)
Record HandlerOptions := { AddSource : bool; Level_opt : option Level }.

(** [slog.Logger] *)
Record Logger (H : Type) := { logger_handler : H }.
Arguments logger_handler {H} _.

(** [slog.New] *)
Definition slog_New {H : Type} (h : H) : Logger H := {| logger_handler := h |}.

Section Fanout.

Context {Context W : Type}.

Implicit Types (w : World Context W) (r : Record_) (ctx : Context).

(** *** Field updates of the world *)

Definition set_writer (x : W) w : World Context W :=
  {| writer := x; base_calls := base_calls w; goroutines := goroutines w;
     chan_buf := chan_buf w; pushed := pushed w; counter := counter w;
     consumer := consumer w; decay := decay w |}.

Definition set_base_calls (x : list Record_) w : World Context W :=
  {| writer := writer w; base_calls := x; goroutines := goroutines w;
     chan_buf := chan_buf w; pushed := pushed w; counter := counter w;
     consumer := consumer w; decay := decay w |}.

Definition set_goroutines (x : list (Task Context)) w : World Context W :=
  {| writer := writer w; base_calls := base_calls w; goroutines := x;
     chan_buf := chan_buf w; pushed := pushed w; counter := counter w;
     consumer := consumer w; decay := decay w |}.

Definition set_chan_buf (x : list error) w : World Context W :=
  {| writer := writer w; base_calls := base_calls w;
     goroutines := goroutines w; chan_buf := x; pushed := pushed w;
     counter := counter w; consumer := consumer w; decay := decay w |}.

Definition set_pushed (x : list error) w : World Context W :=
  {| writer := writer w; base_calls := base_calls w;
     goroutines := goroutines w; chan_buf := chan_buf w; pushed := x;
     counter := counter w; consumer := consumer w; decay := decay w |}.

Definition set_counter (x : Z) w : World Context W :=
  {| writer := writer w; base_calls := base_calls w;
     goroutines := goroutines w; chan_buf := chan_buf w; pushed := pushed w;
     counter := x; consumer := consumer w; decay := decay w |}.

Definition set_consumer (x : ConsumerPC) w : World Context W :=
  {| writer := writer w; base_calls := base_calls w;
     goroutines := goroutines w; chan_buf := chan_buf w; pushed := pushed w;
     counter := counter w; consumer := x; decay := decay w |}.

Definition set_decay (x : DecayPC) w : World Context W :=
  {| writer := writer w; base_calls := base_calls w;
     goroutines := goroutines w; chan_buf := chan_buf w; pushed := pushed w;
     counter := counter w; consumer := consumer w; decay := x |}.

(** *** [targetLogCounter] *)

(** [increment]: [c.counter++] under the write lock. *)
Definition increment w : World Context W :=
  set_counter (wrap_int (counter w + 1)) w.

(** [decrement]: [c.counter--] under the write lock. *)
Definition decrement w : World Context W :=
  set_counter (wrap_int (counter w - 1)) w.

(** [get]: the counter under the read lock. *)
Definition get w : Z := counter w.

(** Lines 171-173: one turn of the loop of [newTargetLogCounter], up to
    the sleep. *)
Definition decay_body w : World Context W :=
  if 0 <? get w then decrement w else w.

(** The same turn, one locked operation at a time. *)
Definition decay_step w : World Context W :=
  match decay w with
  | DecayCheck =>
      if 0 <? get w then set_decay DecayDec w else set_decay DecaySleep w
  | DecayDec => set_decay DecaySleep (decrement w)
  | DecaySleep => set_decay DecayCheck w
  end.

(** *** [customHandler] *)

Section Custom.

Context {H : Type} `{!Handler Context H W}.

Implicit Types (h : customHandler Context H).

(** The [go] statement: the new goroutine joins the pool. *)
Definition go (t : Task Context) w : World Context W :=
  set_goroutines (goroutines w ++ [t]) w.

(** [customHandler.Enabled] *)
Definition customHandler_Enabled h ctx (level : Level) : bool :=
  Enabled (handler h) ctx level.

(** Lines 65-74 of [Handle]: one goroutine per target, in order. Each
    closure holds the [target] of its own iteration (the loop variable is
    per iteration, as from Go 1.22) and the handler's channel. *)
Definition start_targets h ctx r w : World Context W :=
  match logTargets h with
  | Some targets =>
      foldl (fun w target => go (Sending target ctx r (errorChannel h)) w)
        w targets
  | None => w
  end.

(** [customHandler.Handle] *)
Definition customHandler_Handle h ctx r w : World Context W * error :=
  let w := start_targets h ctx r w in
  let '(wr, err) := Handle (handler h) ctx r (writer w) in
  (set_base_calls (base_calls w ++ [r]) (set_writer wr w), err).

(** [customHandler.WithAttrs], the struct it builds. *)
Definition customHandler_WithAttrs h (attrs : list Attr)
    : customHandler Context H :=
  {| handler := WithAttrs (handler h) attrs;
     logTargets := logTargets h;
     errorChannel := errorChannel h |}.

(** [customHandler.WithGroup], the struct it builds. *)
Definition customHandler_WithGroup h (name : string)
    : customHandler Context H :=
  {| handler := WithGroup (handler h) name;
     logTargets := logTargets h;
     errorChannel := errorChannel h |}.

(** [customHandler.Handler] *)
Definition customHandler_Handler h : H := handler h.

#[export] Instance customHandler_is_Handler
    : Handler Context (customHandler Context H) (World Context W) :=
  {| Enabled := customHandler_Enabled;
     Handle := customHandler_Handle;
     WithAttrs := customHandler_WithAttrs;
     WithGroup := customHandler_WithGroup |}.

(** *** Handlers as heap objects

    [WithAttrs] and [WithGroup] take a [*customHandler] and return a pointer
    to a struct they allocate. *)

Definition loc := positive.

Definition alloc (v : customHandler Context H)
    (σ : gmap loc (customHandler Context H))
    : loc * gmap loc (customHandler Context H) :=
  let q := fresh (dom σ) in (q, <[q := v]> σ).

(** [None] is the nil-pointer panic. *)
Definition WithAttrs_ptr (p : loc) (attrs : list Attr)
    (σ : gmap loc (customHandler Context H))
    : option (loc * gmap loc (customHandler Context H)) :=
  match σ !! p with
  | Some h => Some (alloc (customHandler_WithAttrs h attrs) σ)
  | None => None
  end.

Definition WithGroup_ptr (p : loc) (name : string)
    (σ : gmap loc (customHandler Context H))
    : option (loc * gmap loc (customHandler Context H)) :=
  match σ !! p with
  | Some h => Some (alloc (customHandler_WithGroup h name) σ)
  | None => None
  end.

End Custom.

(** *** The logger built by [New] *)

(** What [New] uses of [log/slog], [os] and [context]. *)
Class Slog := {
  JSONHandler : Type;
  JSONHandler_is_Handler :: Handler Context JSONHandler W;
  (** [slog.NewJSONHandler(writer, opts)]; the writer is [writer] of the
      world *)
  NewJSONHandler : HandlerOptions -> JSONHandler;
  (** [os.Stdout] *)
  os_Stdout : W;
  (** [context.Background()] *)
  Background : Context
}.

(** [slog.Logger.log], which [Logger.Error] calls with [LevelError]: a
    disabled level is skipped, otherwise the record, built by
    [slog.NewRecord] and [Record.Add], goes to the handler and the handler's
    error is discarded. [now] is [time.Now()] and [pc] the caller's program
    counter. *)
Definition Logger_log {H S : Type} `{!Handler Context H S} (l : Logger H)
    (ctx : Context) (now : time) (pc : Z) (level : Level) (msg : string)
    (args : list Attr) (s : S) : S :=
  if negb (Enabled (logger_handler l) ctx level) then s
  else
    let r := {| Time := now; Message := msg; Level_ := level; PC := pc;
                attrs := Record_Add args |} in
    (Handle (logger_handler l) ctx r s).1.

Section New.

Context `{!Slog}.

Definition Logger_Error {H S : Type} `{!Handler Context H S} (l : Logger H)
    (now : time) (pc : Z) (msg : string) (args : list Attr) (s : S) : S :=
  Logger_log l Background now pc LevelError msg args s.

(** The record line 43 logs for [err]. *)
Definition error_args (err : error) : list Attr :=
  [{| Key := "error"; Val := KindAny (AnyError err) |}].

(** Lines 39-45: the body of the loop over [errorChannel], for one received
    [err]. *)
Definition errorLoop_body (logger : Logger (customHandler Context JSONHandler))
    (now : time) (pc : Z) (err : error) w : World Context W :=
  if 5 <? get w then w
  else
    match err with
    | Some _ =>
        increment
          (Logger_Error logger now pc "Error in custom handler"
             (error_args err) w)
    | None => w
    end.

(** The same body, one statement at a time. *)
Definition consumer_step (logger : Logger (customHandler Context JSONHandler))
    (now : time) (pc : Z) w : World Context W :=
  match consumer w with
  | Receiving => w
  | Got err =>
      if 5 <? get w then set_consumer Receiving w
      else set_consumer (Checked err) w
  | Checked err =>
      match err with
      | Some _ =>
          set_consumer Logged
            (Logger_Error logger now pc "Error in custom handler"
               (error_args err) w)
      | None => set_consumer Receiving w
      end
  | Logged => set_consumer Receiving (increment w)
  end.

(** [New]: the logger and the world it starts in. The counter of
    [newTargetLogCounter] is 0, both goroutines are at the top of their
    loops. *)
Definition New (writer : option W)
    (logTargets : option (list (LogTarget Context)))
    : Logger (customHandler Context JSONHandler) * World Context W :=
  let writer := match writer with None => os_Stdout | Some x => x end in
  let jsonHandler :=
    NewJSONHandler {| AddSource := true; Level_opt := None |} in
  let errorChannel := make_chan 0 in
  let handler := {| handler := jsonHandler; logTargets := logTargets;
                    errorChannel := errorChannel |} in
  let logger := slog_New handler in
  (logger,
   {| writer := writer; base_calls := []; goroutines := [];
      chan_buf := []; pushed := []; counter := 0;
      consumer := Receiving; decay := DecayCheck |}).

(** *** Scheduling *)

(** Line 68 and the test of line 69, for the goroutine at index [i]. *)
Definition run_SendLog (i : nat) (target : LogTarget Context) ctx r
    (ch : chan) w : World Context W :=
  let err := target_SendLog target ctx r in
  match err with
  | Some _ => set_goroutines (<[i := Pushing ch err]> (goroutines w)) w
  | None => set_goroutines (delete i (goroutines w)) w
  end.

(** A receiver is parked on the channel. *)
Definition receiver_waiting w : bool :=
  bool_decide (consumer w = Receiving ∧ chan_buf w = []).

(** Go's rule for [ch <- v]: the send goes through when a receiver is
    waiting or the buffer has room, and blocks otherwise. *)
Definition push_enabled (ch : chan) w : bool :=
  receiver_waiting w || (length (chan_buf w) <? chan_cap ch)%nat.

(** Line 70 going through, for the goroutine at index [i]. *)
Definition push (i : nat) (err : error) w : World Context W :=
  let w' :=
    if receiver_waiting w then set_consumer (Got err) w
    else set_chan_buf (chan_buf w ++ [err]) w in
  set_pushed (pushed w ++ [err])
    (set_goroutines (delete i (goroutines w)) w').

(** The receive of line 38 from a non-empty buffer. *)
Definition recv_buf w : World Context W :=
  match chan_buf w with
  | e :: rest => set_consumer (Got e) (set_chan_buf rest w)
  | [] => w
  end.

(** The handlers a program can hold: the logger's and what [WithAttrs] and
    [WithGroup] make of it. *)
Inductive derived (h0 : customHandler Context JSONHandler)
    : customHandler Context JSONHandler -> Prop :=
  | derived_refl : derived h0 h0
  | derived_WithAttrs h attrs :
      derived h0 h -> derived h0 (customHandler_WithAttrs h attrs)
  | derived_WithGroup h name :
      derived h0 h -> derived h0 (customHandler_WithGroup h name).

(** One step of the program around a logger: a call of [Handle], or one
    statement of one goroutine. *)
Inductive step (logger : Logger (customHandler Context JSONHandler))
    : World Context W -> World Context W -> Prop :=
  | step_Handle h ctx r w :
      derived (logger_handler logger) h ->
      step logger w (customHandler_Handle h ctx r w).1
  | step_SendLog i target ctx r ch w :
      goroutines w !! i = Some (Sending target ctx r ch) ->
      step logger w (run_SendLog i target ctx r ch w)
  | step_push i ch err w :
      goroutines w !! i = Some (Pushing ch err) ->
      ch = errorChannel (logger_handler logger) ->
      push_enabled ch w = true ->
      step logger w (push i err w)
  | step_recv_buf w :
      consumer w = Receiving -> chan_buf w ≠ [] ->
      step logger w (recv_buf w)
  | step_consumer now pc w :
      consumer w ≠ Receiving ->
      step logger w (consumer_step logger now pc w)
  | step_decay w :
      step logger w (decay_step w).

(** The worlds a logger built by [New] can be in. *)
Definition reachable (writer : option W)
    (logTargets : option (list (LogTarget Context)))
    (w : World Context W) : Prop :=
  rtc (step (New writer logTargets).1) (New writer logTargets).2 w.

(** What the two loops keep true of the counter between their locked
    operations. *)
Definition counter_inv w : Prop :=
  0 <= counter w <= 6
  ∧ (decay w = DecayDec -> 1 <= counter w)
  ∧ (consumer w = Logged ∨ (∃ err, consumer w = Checked err) ->
     counter w <= 5).

(** "A goroutine that is at the send of line 70 can always go on." *)
Definition push_never_blocks (writer : option W)
    (logTargets : option (list (LogTarget Context))) : Prop :=
  let ch := errorChannel (logger_handler (New writer logTargets).1) in
  ∀ w i err,
    reachable writer logTargets w ->
    goroutines w !! i = Some (Pushing ch err) ->
    push_enabled ch w = true.

(** The writer after a sequence of calls of the base handler's [Handle],
    oldest first. *)
Definition replay (calls : list (JSONHandler * Context * Record_)) (wr : W)
    : W :=
  foldl (fun wr c => (Handle c.1.1 c.1.2 c.2 wr).1) wr calls.

(** One statement of the error loop, and of nothing else. *)
Definition consumer_only (logger : Logger (customHandler Context JSONHandler))
    (now : time) (pc : Z) (w w' : World Context W) : Prop :=
  consumer w ≠ Receiving ∧ w' = consumer_step logger now pc w.

(** How many statements the consumer has left before it is back at its
    receive, at most. *)
Definition consumer_rank (pc : ConsumerPC) : nat :=
  match pc with
  | Receiving => 0
  | Logged => 1
  | Checked _ => 2
  | Got _ => 3
  end.


(** [n] turns of the loop of lines 170-175. *)
Definition decay_run (n : nat) w : World Context W :=
  Nat.iter n decay_body w.

(** A goroutine of the pool belongs to the logger: it was started for one
    of its sinks, sends on its channel, and pushes a non-nil error. *)
Definition task_ok (h0 : customHandler Context JSONHandler)
    (t : Task Context) : Prop :=
  match t with
  | Sending target _ _ ch =>
      ch = errorChannel h0 ∧ target ∈ default [] (logTargets h0)
  | Pushing ch err => ch = errorChannel h0 ∧ err ≠ None
  end.

(** The error the consumer holds, if it holds one, is not nil. *)
Definition consumer_ok (pc : ConsumerPC) : Prop :=
  match pc with
  | Got err | Checked err => err ≠ None
  | Receiving | Logged => True
  end.

Definition pool_inv (h0 : customHandler Context JSONHandler) w : Prop :=
  Forall (task_ok h0) (goroutines w)
  ∧ Forall (fun err : error => err ≠ None) (pushed w)
  ∧ Forall (fun err : error => err ≠ None) (chan_buf w)
  ∧ consumer_ok (consumer w).

End New.

End Fanout.

(** ** A small concrete program

    One instance of everything the development leaves open, to run the
    definitions on: a writer that keeps the lines written to it, a base
    handler with a minimum level, an endpoint that answers 500 and a sink
    that is down. *)

Module Demo.

Definition lines := list string.

Record miniHandler := { min_level : Level; prefix : list string }.

#[export] Instance miniHandler_is_Handler : Handler unit miniHandler lines :=
  {| Enabled := fun h _ level => bool_decide (min_level h <= level);
     Handle := fun h _ r out => (out ++ [Message r], None);
     WithAttrs := fun h attrs =>
       {| min_level := min_level h;
          prefix := prefix h ++ (Key <$> attrs) |};
     WithGroup := fun h name =>
       {| min_level := min_level h; prefix := prefix h ++ [name] |} |}.

#[export] Instance slog : @Slog unit lines :=
  {| JSONHandler := miniHandler;
     NewJSONHandler := fun opts =>
       {| min_level := default LevelInfo (Level_opt opts); prefix := [] |};
     os_Stdout := [];
     Background := tt |}.

#[export] Instance golib : GoLib :=
  {| CallersFrames_Next := fun pc => {| Function := "main.main"; Line := pc |};
     Level_String := fun level =>
       if decide (level = LevelError) then "ERROR" else "INFO";
     http_NewRequest := fun method url =>
       ({| Method := method; URL := url; Header := ∅; Body := None |}, None);
     json_Marshal := fun _ => ("{}", None);
     client_Do := fun _ => ({| StatusCode := 500 |}, None) |}.

Definition down : LogTarget unit :=
  {| target_SendLog := fun _ _ => Some "connection refused" |}.

Definition rec1 : Record_ :=
  {| Time := {| unix_sec := 1700000000; unix_nsec := 0 |};
     Message := "started"; Level_ := LevelInfo; PC := 42;
     attrs := [ {| Key := "user"; Val := KindString "ann" |};
                {| Key := "level"; Val := KindInt64 7 |} ] |}.

Definition relic : newRelicLogger :=
  {| newRelicEndpoint := "https://log-api.newrelic.com/log/v1";
     newRelicLicenseKey := "key" |}.

Definition world0 : World unit lines := (New None (Some [down])).2.
Definition logger0 : Logger (customHandler unit miniHandler) :=
  (New None (Some [down])).1.

(** [Handle], the sink failing, the consumer taking the error; then a
    second [Handle] and the sink failing again while the consumer has not
    come back to its receive. *)
Definition world_blocked : World unit lines :=
  let ch := errorChannel (logger_handler logger0) in
  let w1 := (customHandler_Handle (logger_handler logger0) tt rec1 world0).1 in
  let w2 := run_SendLog 0 down tt rec1 ch w1 in
  let w3 := push 0 (Some "connection refused") w2 in
  let w4 := (customHandler_Handle (logger_handler logger0) tt rec1 w3).1 in
  run_SendLog 0 down tt rec1 ch w4.

(** A sink that accepts every record. *)
Definition up : LogTarget unit :=
  {| target_SendLog := fun _ _ => None |}.

(** The New Relic sink of the example: its endpoint answers 500. *)
Definition relic_sink : LogTarget unit :=
  NewNewRelicLogger "https://log-api.newrelic.com/log/v1" "key".

End Demo.

(** ** Properties of the New Relic sink *)

Section NewRelicSpec.

Context {Context : Type} `{!GoLib}.

Lemma Record_Attrs_add_attr (l : list Attr) (fields : gmap string any) :
  Record_Attrs add_attr l fields =
  foldl (fun m a => <[Key a := Value_Any (Val a)]> m) fields l.
Proof.
  revert fields. induction l as [|a l IH]; intros fields; simpl; [done|].
  apply IH.
Qed.

Lemma fold_insert_lookup_notin (l : list Attr) (fields : gmap string any) k :
  k ∉ (Key <$> l) ->
  foldl (fun m a => <[Key a := Value_Any (Val a)]> m) fields l !! k
  = fields !! k.
Proof.
  revert fields. induction l as [|a l IH]; intros fields Hk; simpl; [done|].
  rewrite fmap_cons in Hk. apply not_elem_of_cons in Hk as [Hne Hk].
  rewrite IH by done. by rewrite lookup_insert_ne.
Qed.

Lemma fold_insert_is_Some (l : list Attr) (fields : gmap string any) k :
  is_Some (fields !! k) ->
  is_Some (foldl (fun m a => <[Key a := Value_Any (Val a)]> m) fields l !! k).
Proof.
  revert fields. induction l as [|a l IH]; intros fields Hk; simpl; [done|].
  apply IH. destruct (decide (Key a = k)) as [->|Hne].
  - rewrite lookup_insert_eq. eauto.
  - by rewrite lookup_insert_ne.
Qed.

(** The attribute that comes last among those of its key decides the
    payload's entry. *)
Lemma SendLog_fields_last r pre a post :
  attrs r = pre ++ a :: post ->
  Key a ∉ (Key <$> post) ->
  SendLog_fields r !! Key a = Some (Value_Any (Val a)).
Proof.
  intros Hr Hlast. unfold SendLog_fields.
  rewrite Record_Attrs_add_attr, Hr, foldl_app. simpl.
  rewrite fold_insert_lookup_notin by done. apply lookup_insert_eq.
Qed.

Lemma SendLog_fields_reserved r k :
  is_Some (reserved_fields r !! k) -> is_Some (SendLog_fields r !! k).
Proof.
  intros Hk. unfold SendLog_fields. rewrite Record_Attrs_add_attr.
  by apply fold_insert_is_Some.
Qed.

(** The keys lines 122-127 assign. *)
Lemma reserved_fields_keys r k :
  k ∈ ["time"; "message"; "level"; "timestamp"; "logtype"; "source"] ->
  is_Some (reserved_fields r !! k).
Proof.
  intros Hk. unfold reserved_fields.
  repeat (apply elem_of_cons in Hk as [->|Hk]; [by simplify_map_eq|]).
  by apply not_elem_of_nil in Hk.
Qed.

(** C6. For a record whose attributes are [k1:v1] and [k2:v2], with two
    different keys, the payload [SendLog] builds contains the keys [time],
    [message], [level], [timestamp], [logtype], [source], [k1] and [k2], and
    [k1] and [k2] map to the Go values of [v1] and [v2]. *)
Theorem SendLog_fields_two_attrs r k1 v1 k2 v2 :
  attrs r = [ {| Key := k1; Val := v1 |}; {| Key := k2; Val := v2 |} ] ->
  k1 ≠ k2 ->
  (∀ k, k ∈ ["time"; "message"; "level"; "timestamp"; "logtype"; "source";
             k1; k2] ->
        is_Some (SendLog_fields r !! k))
  ∧ SendLog_fields r !! k1 = Some (Value_Any v1)
  ∧ SendLog_fields r !! k2 = Some (Value_Any v2).
Proof.
  intros Hr Hne.
  assert (H1 : SendLog_fields r !! k1 = Some (Value_Any v1)).
  { apply (SendLog_fields_last r [] {| Key := k1; Val := v1 |}
             [ {| Key := k2; Val := v2 |} ]); [done|].
    simpl. by intros ?%list_elem_of_singleton. }
  assert (H2 : SendLog_fields r !! k2 = Some (Value_Any v2)).
  { apply (SendLog_fields_last r [ {| Key := k1; Val := v1 |} ]
             {| Key := k2; Val := v2 |} []); [done|].
    simpl. apply not_elem_of_nil. }
  split; [|done].
  intros k Hk.
  destruct (decide (k = k1)) as [->|Hk1]; [by rewrite H1|].
  destruct (decide (k = k2)) as [->|Hk2]; [by rewrite H2|].
  apply SendLog_fields_reserved, reserved_fields_keys.
  rewrite !elem_of_cons in Hk. rewrite !elem_of_cons.
  destruct Hk as [Hk|[Hk|[Hk|[Hk|[Hk|[Hk|[Hk|[Hk|Hk]]]]]]]]; auto 10.
  - by destruct Hk1.
  - by destruct Hk2.
Qed.

(** C10. The attributes are merged after the reserved fields are set: an
    attribute whose key is one of [time], [message], [level], [timestamp],
    [logtype], [source], and which no later attribute of the same key
    follows, replaces the reserved field's value in the payload. *)
Theorem SendLog_fields_attr_overrides_reserved r pre a post :
  attrs r = pre ++ a :: post ->
  Key a ∉ (Key <$> post) ->
  Key a ∈ ["time"; "message"; "level"; "timestamp"; "logtype"; "source"] ->
  SendLog_fields r =
    foldl (fun m a => <[Key a := Value_Any (Val a)]> m)
      (reserved_fields r) (attrs r)
  ∧ is_Some (reserved_fields r !! Key a)
  ∧ SendLog_fields r !! Key a = Some (Value_Any (Val a)).
Proof.
  intros Hr Hlast Hres. split; [|split].
  - unfold SendLog_fields. apply Record_Attrs_add_attr.
  - by apply reserved_fields_keys.
  - by apply (SendLog_fields_last r pre a post).
Qed.

(** C7. [SendLog] returns an error exactly when building the request,
    serialising the payload or the round trip fails, or the response's
    status code is not 202; it returns nil exactly when all three succeed
    and the status code is 202. *)
Theorem SendLog_error_iff (l : newRelicLogger) (ctx : Context) r :
  let e_req := (http_NewRequest MethodPost (newRelicEndpoint l)).2 in
  let e_json := (json_Marshal (SendLog_fields r)).2 in
  let e_do := (client_Do (SendLog_request l r)).2 in
  let status := StatusCode (client_Do (SendLog_request l r)).1 in
  (SendLog l ctx r ≠ None ↔
     e_req ≠ None ∨ e_json ≠ None ∨ e_do ≠ None ∨ status ≠ 202)
  ∧ (SendLog l ctx r = None ↔
     e_req = None ∧ e_json = None ∧ e_do = None ∧ status = 202).
Proof.
  unfold SendLog, SendLog_request, StatusAccepted, Errorf_status.
  destruct (http_NewRequest MethodPost (newRelicEndpoint l))
    as [req [e1|]]; simpl; [intuition congruence|].
  destruct (json_Marshal (SendLog_fields r)) as [js [e2|]]; simpl;
    [intuition congruence|].
  destruct (client_Do _) as [resp [e3|]]; simpl; [intuition congruence|].
  destruct (decide (StatusCode resp ≠ 202)) as [Hs|Hs];
    [intuition congruence|].
  apply dec_stable in Hs. intuition congruence.
Qed.

End NewRelicSpec.

(** ** Properties of the fan-out handler *)

Section FanoutSpec.

Context {Context W : Type}.

Implicit Types (w : World Context W) (r : Record_) (ctx : Context).

Lemma wrap_int_id z : is_int z -> wrap_int z = z.
Proof.
  unfold is_int, wrap_int, int_min, int_max. intros Hz.
  rewrite Z.mod_small by lia. lia.
Qed.

Section CustomSpec.

Context {H : Type} `{!Handler Context H W}.

Implicit Types (h : customHandler Context H).

Lemma foldl_go (f : LogTarget Context -> Task Context) targets w :
  foldl (fun w target => go (f target) w) w targets
  = set_goroutines (goroutines w ++ (f <$> targets)) w.
Proof.
  revert w. induction targets as [|t targets IH]; intros w; simpl.
  - destruct w; unfold set_goroutines; simpl. by rewrite app_nil_r.
  - rewrite IH. destruct w; unfold set_goroutines, go; simpl.
    by rewrite <- app_assoc.
Qed.

(** What lines 65-74 leave behind: the new goroutines, nothing else. *)
Lemma start_targets_spec h ctx r w :
  start_targets h ctx r w
  = set_goroutines
      (goroutines w ++
       ((fun target => Sending target ctx r (errorChannel h))
          <$> default [] (logTargets h))) w.
Proof.
  unfold start_targets. destruct (logTargets h) as [targets|]; simpl.
  - apply foldl_go.
  - destruct w; unfold set_goroutines; simpl. by rewrite app_nil_r.
Qed.

(** [Handle], field by field. *)
Lemma customHandler_Handle_spec h ctx r w :
  customHandler_Handle h ctx r w
  = ({| writer := (Handle (handler h) ctx r (writer w)).1;
        base_calls := base_calls w ++ [r];
        goroutines :=
          goroutines w ++
          ((fun target => Sending target ctx r (errorChannel h))
             <$> default [] (logTargets h));
        chan_buf := chan_buf w; pushed := pushed w; counter := counter w;
        consumer := consumer w; decay := decay w |},
     (Handle (handler h) ctx r (writer w)).2).
Proof.
  unfold customHandler_Handle. rewrite start_targets_spec. simpl.
  by destruct (Handle (handler h) ctx r (writer w)).
Qed.

(** C1. Whatever sinks are attached and whatever their [SendLog] does,
    [Handle] hands the record to the base handler once, in the call itself:
    the base handler's history grows by exactly this record, the writer is
    what the base handler's [Handle] leaves, and the error returned is the
    base handler's. The sinks are only started, and nothing a sink's
    goroutine does later (its [SendLog] returning, its push on the error
    channel) changes what the base handler received or wrote. *)
Theorem Handle_delivers_to_base_once (base : H)
    (targets : option (list (LogTarget Context))) (ch : chan) ctx r w :
  let h := {| handler := base; logTargets := targets; errorChannel := ch |} in
  let res := customHandler_Handle h ctx r w in
  base_calls res.1 = base_calls w ++ [r]
  ∧ writer res.1 = (Handle base ctx r (writer w)).1
  ∧ res.2 = (Handle base ctx r (writer w)).2
  ∧ goroutines res.1 =
      goroutines w ++
      ((fun target => Sending target ctx r ch) <$> default [] targets)
  ∧ (∀ i target ctx' r' ch' w',
       base_calls (run_SendLog i target ctx' r' ch' w') = base_calls w'
       ∧ writer (run_SendLog i target ctx' r' ch' w') = writer w')
  ∧ (∀ i err w',
       base_calls (push i err w') = base_calls w'
       ∧ writer (push i err w') = writer w').
Proof.
  intros h res. subst res. rewrite customHandler_Handle_spec. simpl.
  split_and!; try done.
  - intros i target ctx' r' ch' w'. unfold run_SendLog.
    by destruct (target_SendLog target ctx' r').
  - intros i err w'. unfold push. by destruct (receiver_waiting w').
Qed.


Lemma alloc_fresh (v : customHandler Context H)
    (σ : gmap loc (customHandler Context H)) :
  σ !! (alloc v σ).1 = None.
Proof.
  unfold alloc. simpl. apply not_elem_of_dom, is_fresh.
Qed.

Lemma alloc_spec (v : customHandler Context H)
    (σ : gmap loc (customHandler Context H)) p h :
  σ !! p = Some h ->
  let '(q, σ') := alloc v σ in
  σ !! q = None ∧ q ≠ p ∧ σ' !! q = Some v ∧ σ' !! p = Some h
  ∧ ∀ p', p' ≠ q -> σ' !! p' = σ !! p'.
Proof.
  intros Hp. pose proof (alloc_fresh v σ) as Hq. unfold alloc in *.
  simpl in *. set (q := fresh (dom σ)) in *.
  assert (q ≠ p) by congruence.
  split_and!; [done|done|apply lookup_insert_eq| |].
  - by rewrite lookup_insert_ne.
  - intros p' Hp'. by rewrite lookup_insert_ne.
Qed.

(** C8. [WithAttrs] and [WithGroup] on a handler [h] at [p] return a
    pointer [q] to a newly allocated handler: its base handler is
    [h]'s base with the attributes (the group) added, its sink list and
    error channel are [h]'s; [h] at [p] and every other object are as they
    were. *)
Theorem WithAttrs_WithGroup_new_handler
    (σ : gmap loc (customHandler Context H)) (p : loc) h
    (attrs : list Attr) (name : string) :
  σ !! p = Some h ->
  (∃ q σ', WithAttrs_ptr p attrs σ = Some (q, σ')
     ∧ σ !! q = None ∧ q ≠ p
     ∧ σ' !! q = Some {| handler := WithAttrs (handler h) attrs;
                         logTargets := logTargets h;
                         errorChannel := errorChannel h |}
     ∧ σ' !! p = Some h
     ∧ ∀ p', p' ≠ q -> σ' !! p' = σ !! p')
  ∧ (∃ q σ', WithGroup_ptr p name σ = Some (q, σ')
     ∧ σ !! q = None ∧ q ≠ p
     ∧ σ' !! q = Some {| handler := WithGroup (handler h) name;
                         logTargets := logTargets h;
                         errorChannel := errorChannel h |}
     ∧ σ' !! p = Some h
     ∧ ∀ p', p' ≠ q -> σ' !! p' = σ !! p').
Proof.
  intros Hp. unfold WithAttrs_ptr, WithGroup_ptr. rewrite Hp. split.
  - pose proof (alloc_spec (customHandler_WithAttrs h attrs) σ p h Hp) as Ha.
    destruct (alloc (customHandler_WithAttrs h attrs) σ) as [q σ'].
    exists q, σ'. by split.
  - pose proof (alloc_spec (customHandler_WithGroup h name) σ p h Hp) as Ha.
    destruct (alloc (customHandler_WithGroup h name) σ) as [q σ'].
    exists q, σ'. by split.
Qed.

End CustomSpec.

End FanoutSpec.

(** ** Properties of the logger built by [New] *)

Section LoggerSpec.

Context {Context W : Type} `{!@Slog Context W}.

Implicit Types (w : World Context W) (r : Record_) (ctx : Context).
Implicit Types (h : customHandler Context JSONHandler).

(** Logging through the fan-out handler leaves the counter, the channel and
    both loops alone. *)
Lemma Logger_Error_frame (logger : Logger (customHandler Context JSONHandler))
    now pc msg args w :
  let w' := Logger_Error logger now pc msg args w in
  counter w' = counter w ∧ consumer w' = consumer w ∧ decay w' = decay w
  ∧ chan_buf w' = chan_buf w ∧ pushed w' = pushed w.
Proof.
  unfold Logger_Error, Logger_log. simpl.
  destruct (customHandler_Enabled _ _ _); simpl; [|done].
  by rewrite customHandler_Handle_spec.
Qed.

Lemma Logger_Error_enabled
    (logger : Logger (customHandler Context JSONHandler)) now pc msg args w :
  Enabled (handler (logger_handler logger)) Background LevelError = true ->
  Logger_Error logger now pc msg args w
  = (customHandler_Handle (logger_handler logger) Background
       {| Time := now; Message := msg; Level_ := LevelError; PC := pc;
          attrs := Record_Add args |} w).1.
Proof.
  intros He. unfold Logger_Error, Logger_log. simpl.
  unfold customHandler_Enabled. by rewrite He.
Qed.

(** Handlers made by [WithAttrs] and [WithGroup] keep the sinks and the
    channel. *)
Lemma derived_same h0 h :
  derived h0 h ->
  logTargets h = logTargets h0 ∧ errorChannel h = errorChannel h0.
Proof. induction 1; simpl; auto. Qed.

(** One turn of the decay loop in locked operations is [decay_body]: the
    test and, when it holds, the decrement. *)
Lemma decay_steps_body w :
  decay w = DecayCheck ->
  (if 0 <? get w then decay_step (decay_step w) else decay_step w)
  = set_decay DecaySleep (decay_body w).
Proof.
  intros Hd. unfold decay_body.
  destruct (0 <? get w) eqn:Hget.
  - unfold decay_step at 2. rewrite Hd, Hget. unfold decay_step. by simpl.
  - unfold decay_step. by rewrite Hd, Hget.
Qed.

(** One turn of the error loop in single statements is
    [errorLoop_body]. *)
Lemma consumer_steps_body
    (logger : Logger (customHandler Context JSONHandler)) now pc err w :
  consumer w = Got err ->
  consumer_step logger now pc
    (consumer_step logger now pc (consumer_step logger now pc w))
  = set_consumer Receiving (errorLoop_body logger now pc err w).
Proof.
  intros Hc. destruct w as [wr bc gs cb ps k cs dc]. simpl in Hc. subst cs.
  unfold errorLoop_body, consumer_step, get. simpl.
  destruct (5 <? k); simpl; [done|].
  destruct err as [msg|]; simpl; [|done].
  unfold Logger_Error, Logger_log. simpl. unfold customHandler_Enabled.
  destruct (Enabled _ _ _); simpl; [|done].
  rewrite !customHandler_Handle_spec. by simpl.
Qed.

(** Splits [chan_buf w = [] ∧ counter_inv w] into its four parts. *)
Ltac inv_parts := refine (conj _ (conj _ (conj _ _))).

Ltac no_pc := first [discriminate | intros [?|[? ?]]; discriminate].

(** Every step keeps the error channel empty and [counter_inv]. *)
Lemma step_counter_inv writer targets w w' :
  step (New writer targets).1 w w' ->
  chan_buf w = [] ∧ counter_inv w ->
  chan_buf w' = [] ∧ counter_inv w'.
Proof.
  intros Hstep (Hbuf & Hr & Hdec & Hle). unfold counter_inv.
  destruct Hstep as [h ctx r w Hd | i target ctx r ch w Hi
                    | i ch err w Hi Hch Hen | w Hc Hne
                    | now pc w Hc | w].
  - rewrite customHandler_Handle_spec. simpl. by inv_parts.
  - unfold run_SendLog.
    destruct (target_SendLog target ctx r); simpl; by inv_parts.
  - subst ch. unfold push_enabled in Hen. simpl in Hen.
    rewrite orb_false_r in Hen. unfold push. rewrite Hen. simpl.
    inv_parts; [done|done|done|no_pc].
  - done.
  - unfold consumer_step. destruct (consumer w) as [|err|err|] eqn:Hcw.
    + done.
    + unfold get. destruct (Z.ltb_spec 5 (counter w)); simpl.
      * inv_parts; [done|done|done|no_pc].
      * inv_parts; [done|done|done|]. intros _. lia.
    + destruct err as [msg|];
        cbn [chan_buf counter decay consumer set_consumer].
      * pose proof (Logger_Error_frame (New writer targets).1 now pc
                      "Error in custom handler"
                      (error_args (Some msg)) w) as (Hk&Hcs&Hdc&Hcb&_).
        rewrite Hk, Hdc, Hcb. inv_parts; [done|done|done|].
        intros _. apply Hle. right. by eexists.
      * inv_parts; [done|done|done|no_pc].
    + simpl. specialize (Hle (or_introl eq_refl)).
      rewrite wrap_int_id by (unfold is_int, int_min, int_max; lia).
      inv_parts; [done|lia| |no_pc]. intros Hd. lia.
  - unfold decay_step, get. destruct (decay w) eqn:Hdw.
    + destruct (Z.ltb_spec 0 (counter w)); simpl.
      * inv_parts; [done|done| |done]. intros _. lia.
      * inv_parts; [done|done|no_pc|done].
    + simpl. specialize (Hdec eq_refl).
      rewrite wrap_int_id by (unfold is_int, int_min, int_max; lia).
      inv_parts; [done|lia|no_pc|]. intros Hc. specialize (Hle Hc). lia.
    + simpl. inv_parts; [done|done|no_pc|done].
Qed.

Lemma reachable_counter_inv writer targets w :
  reachable writer targets w -> chan_buf w = [] ∧ counter_inv w.
Proof.
  unfold reachable. intros Hr.
  apply (rtc_ind_r (R := step (New writer targets).1)
           (fun w => chan_buf w = [] ∧ counter_inv w)
           (New writer targets).2); [| |exact Hr].
  - simpl. unfold counter_inv. simpl.
    inv_parts; [done|lia|no_pc|no_pc].
  - intros y z _ Hstep Hy. by eapply step_counter_inv.
Qed.

(** C2. One turn of the error loop, for a counter [v]. The base handler
    [New] builds has no level option, so it lets error-level records
    through (first hypothesis). If [v <= 5] and the error is not nil, the
    base handler receives one error-level record "Error in custom handler"
    whose only attribute has the key "error" and the received error as
    value, and the counter becomes [v + 1]. If [v > 5] the error is
    dropped: nothing changes, the counter included. *)
Theorem errorLoop_body_spec (out : option W)
    (targets : option (list (LogTarget Context))) now pc (err : error) w :
  (∀ ctx, Enabled (NewJSONHandler {| AddSource := true; Level_opt := None |})
            ctx LevelError = true) ->
  is_int (counter w) ->
  let logger := (New out targets).1 in
  let w' := errorLoop_body logger now pc err w in
  let r := {| Time := now; Message := "Error in custom handler";
              Level_ := LevelError; PC := pc;
              attrs := [ {| Key := "error";
                            Val := KindAny (AnyError err) |} ] |} in
  (counter w <= 5 -> err ≠ None ->
     counter w' = counter w + 1
     ∧ base_calls w' = base_calls w ++ [r]
     ∧ writer w' =
         (Handle (handler (logger_handler logger)) Background r
            (writer w)).1)
  ∧ (5 < counter w -> w' = w).
Proof.
  intros Hen Hint logger w' r. subst w'. unfold errorLoop_body, get. split.
  - intros Hv Herr. destruct (Z.ltb_spec 5 (counter w)); [lia|].
    destruct err as [msg|]; [|done].
    rewrite Logger_Error_enabled by apply Hen.
    rewrite customHandler_Handle_spec. unfold increment. simpl.
    split; [|done].
    apply wrap_int_id. unfold is_int, int_min, int_max in *. lia.
  - intros Hv. by destruct (Z.ltb_spec 5 (counter w)); [|lia].
Qed.

(** C4. One turn of the decay loop takes a counter [v > 0] to [v - 1] and
    leaves a counter [0] at [0]; a decrement that follows the observation
    [v > 0] does not go below 0; and in every world a logger built by [New]
    can reach, with the two loops interleaved in any way, the counter is
    not below 0. *)
Theorem decay_counter_spec :
  (∀ w, is_int (counter w) ->
     (0 < counter w -> counter (decay_body w) = counter w - 1)
     ∧ (counter w = 0 -> decay_body w = w)
     ∧ (0 <= counter w -> 0 <= counter (decay_body w)))
  ∧ (∀ w, is_int (counter w) -> 0 < get w -> 0 <= counter (decrement w))
  ∧ (∀ writer targets w, reachable writer targets w -> 0 <= counter w).
Proof.
  assert (Hdec : ∀ w, is_int (counter w) -> 0 < counter w ->
                      counter (decrement w) = counter w - 1).
  { intros w Hint Hpos. unfold decrement. simpl. apply wrap_int_id.
    unfold is_int, int_min, int_max in *. lia. }
  split; [|split].
  - intros w Hint. unfold decay_body, get.
    destruct (Z.ltb_spec 0 (counter w)) as [Hpos|Hle].
    + rewrite (Hdec w Hint Hpos). split; [done|]. split; lia.
    + split; [lia|]. by split.
  - intros w Hint Hpos. unfold get in Hpos. rewrite (Hdec w Hint Hpos). lia.
  - intros writer targets w Hr.
    apply reachable_counter_inv in Hr as (_ & Hk & _). lia.
Qed.

(** C5, as the code has it. The error channel is unbuffered and line 70 is
    a blocking send: in every reachable world the channel holds nothing and
    a push can go through exactly when the consumer is waiting at its
    receive. The push runs in the sink's goroutine, so only that goroutine
    waits: [Handle] does not touch the channel or the consumer. *)
Theorem errorChannel_unbuffered (writer : option W)
    (targets : option (list (LogTarget Context))) :
  let ch := errorChannel (logger_handler (New writer targets).1) in
  chan_cap ch = 0%nat
  ∧ (∀ w, reachable writer targets w ->
       chan_buf w = []
       ∧ (push_enabled ch w = true ↔ consumer w = Receiving))
  ∧ (∀ h ctx r w,
       let w' := (customHandler_Handle h ctx r w).1 in
       consumer w' = consumer w ∧ chan_buf w' = chan_buf w
       ∧ pushed w' = pushed w).
Proof.
  simpl. split; [done|]. split.
  - intros w Hr. apply reachable_counter_inv in Hr as (Hbuf & _).
    split; [done|]. unfold push_enabled, receiver_waiting. simpl.
    rewrite orb_false_r, bool_decide_eq_true. tauto.
  - intros h ctx r w. rewrite customHandler_Handle_spec. by simpl.
Qed.

(** With no sink attached nothing ever runs beside the two loops. *)
Lemma reachable_no_sinks writer targets w :
  default [] targets = [] ->
  reachable writer targets w ->
  goroutines w = [] ∧ pushed w = [] ∧ chan_buf w = []
  ∧ consumer w = Receiving.
Proof.
  intros Hts Hr. unfold reachable in Hr.
  apply (rtc_ind_r (R := step (New writer targets).1)
           (fun w => goroutines w = [] ∧ pushed w = [] ∧ chan_buf w = []
                     ∧ consumer w = Receiving)
           (New writer targets).2); [done| |exact Hr].
  intros y z _ Hstep (Hg & Hp & Hb & Hc).
  destruct Hstep as [h ctx r w0 Hd | i target ctx r ch w0 Hi
                    | i ch err w0 Hi Hch Hen | w0 Hc0 Hne
                    | now pc w0 Hc0 | w0].
  - apply derived_same in Hd as [Hd _]. simpl in Hd.
    rewrite customHandler_Handle_spec. simpl. rewrite Hd, Hts, Hg. done.
  - by rewrite Hg in Hi.
  - by rewrite Hg in Hi.
  - done.
  - done.
  - unfold decay_step. destruct (decay w0); [|done|done].
    by destruct (0 <? get w0).
Qed.

(** C9. For a logger built with no sink (a nil or an empty list), every
    [Handle] on the logger's handler or on one made from it by [WithAttrs]
    or [WithGroup] writes the record to the base handler and does nothing
    else: the writer is what the base handler's [Handle] leaves, the error
    returned is the base handler's, the base handler's history grows by
    this record, no goroutine is started, nothing is pushed, and the
    counter and both loops are untouched. And in every world the logger
    can reach there is no sink goroutine, nothing was ever pushed on the
    error channel, and the consumer waits at its receive. *)
Theorem no_sinks_no_error_traffic (out : option W)
    (targets : option (list (LogTarget Context))) :
  targets = None ∨ targets = Some [] ->
  (∀ h ctx r w,
     derived (logger_handler (New out targets).1) h ->
     let w' := (customHandler_Handle h ctx r w).1 in
     base_calls w' = base_calls w ++ [r]
     ∧ goroutines w' = goroutines w
     ∧ pushed w' = pushed w ∧ chan_buf w' = chan_buf w
     ∧ writer w' = (Handle (handler h) ctx r (writer w)).1
     ∧ (customHandler_Handle h ctx r w).2
       = (Handle (handler h) ctx r (writer w)).2
     ∧ counter w' = counter w ∧ consumer w' = consumer w
     ∧ decay w' = decay w)
  ∧ (∀ w, reachable out targets w ->
       goroutines w = [] ∧ pushed w = [] ∧ chan_buf w = []
       ∧ consumer w = Receiving).
Proof.
  intros Hts.
  assert (Hnil : default [] targets = []) by (by destruct Hts as [->| ->]).
  split.
  - intros h ctx r w Hd. apply derived_same in Hd as [Hd _]. simpl in Hd.
    rewrite customHandler_Handle_spec. simpl. rewrite Hd, Hnil.
    by rewrite app_nil_r.
  - intros w Hr. by apply (reachable_no_sinks out targets).
Qed.

End LoggerSpec.

(** ** More on the New Relic sink *)

Section NewRelicMore.

Context {Context : Type} `{!GoLib}.

Lemma fold_insert_last_attr (l : list Attr) (fields : gmap string any) k :
  foldl (fun m a => <[Key a := Value_Any (Val a)]> m) fields l !! k
  = match last_attr k l with
    | Some a => Some (Value_Any (Val a))
    | None => fields !! k
    end.
Proof.
  induction l as [|a l IH] using rev_ind; [done|].
  rewrite foldl_app. simpl. unfold last_attr in *. rewrite filter_app.
  destruct (decide (Key a = k)) as [Hk|Hk].
  - rewrite (filter_cons_True _ a []) by done. rewrite filter_nil.
    rewrite last_snoc. subst k. apply lookup_insert_eq.
  - rewrite (filter_cons_False _ a []) by done. rewrite filter_nil.
    rewrite app_nil_r, lookup_insert_ne by done. apply IH.
Qed.

(** X1. What the payload holds under any key: the Go value of the last
    attribute of that key when the record has one, the reserved field
    otherwise (nothing, for a key that is not reserved). *)
Theorem SendLog_fields_lookup r k :
  SendLog_fields r !! k
  = match last_attr k (attrs r) with
    | Some a => Some (Value_Any (Val a))
    | None => reserved_fields r !! k
    end.
Proof.
  unfold SendLog_fields. rewrite Record_Attrs_add_attr.
  apply fold_insert_last_attr.
Qed.

Lemma fold_insert_dom (l : list Attr) (fields : gmap string any) :
  dom (foldl (fun m a => <[Key a := Value_Any (Val a)]> m) fields l)
  = dom fields ∪ list_to_set (Key <$> l).
Proof.
  revert fields. induction l as [|a l IH]; intros fields; simpl.
  - by rewrite union_empty_r_L.
  - rewrite IH, dom_insert_L.
    rewrite (union_comm_L {[Key a]} (dom fields)).
    by rewrite <- union_assoc_L.
Qed.

Lemma reserved_fields_dom r :
  dom (reserved_fields r)
  = list_to_set
      ["time"; "message"; "level"; "timestamp"; "logtype"; "source"].
Proof.
  unfold reserved_fields. rewrite !dom_insert_L, dom_empty_L. simpl.
  apply set_eq. intros k.
  rewrite !elem_of_union, !elem_of_singleton, elem_of_empty. tauto.
Qed.

(** X2. The keys of the payload are the six reserved keys and the keys of the
    record's attributes, and no other. *)
Theorem SendLog_fields_dom r :
  dom (SendLog_fields r)
  = list_to_set
      ["time"; "message"; "level"; "timestamp"; "logtype"; "source"]
    ∪ list_to_set (Key <$> attrs r).
Proof.
  unfold SendLog_fields.
  by rewrite Record_Attrs_add_attr, fold_insert_dom, reserved_fields_dom.
Qed.

(** X3. A reserved key that no attribute uses keeps the value lines 122-130
    give it: the record's time, message, level name, Unix seconds, the tag
    "application", and the function and line of the call site. *)
Theorem SendLog_fields_reserved_values r :
  let keys := Key <$> attrs r in
  let f := CallersFrames_Next (PC r) in
  ("time" ∉ keys -> SendLog_fields r !! "time" = Some (AnyTime (Time r)))
  ∧ ("message" ∉ keys ->
     SendLog_fields r !! "message" = Some (AnyString (Message r)))
  ∧ ("level" ∉ keys ->
     SendLog_fields r !! "level"
     = Some (AnyString (Level_String (Level_ r))))
  ∧ ("timestamp" ∉ keys ->
     SendLog_fields r !! "timestamp" = Some (AnyInt64 (unix_sec (Time r))))
  ∧ ("logtype" ∉ keys ->
     SendLog_fields r !! "logtype" = Some (AnyString "application"))
  ∧ ("source" ∉ keys ->
     SendLog_fields r !! "source"
     = Some (AnyMap (<["line" := AnyInt (Line f)]>
                       (<["function" := AnyString (Function f)]> ∅)))).
Proof.
  intros keys f. unfold SendLog_fields. rewrite Record_Attrs_add_attr.
  split_and!; intros Hk; rewrite fold_insert_lookup_notin by exact Hk;
    reflexivity.
Qed.

(** X4. The request that reaches the client: what [http.NewRequest] built for
    a POST to the endpoint, with the two headers set (and no other header
    touched) and the serialised payload as body. When building and
    serialising succeed, [SendLog]'s result is decided by the client's
    answer to this request. *)
Theorem SendLog_request_spec (l : newRelicLogger) (ctx : Context) r :
  let built := http_NewRequest MethodPost (newRelicEndpoint l) in
  let json := json_Marshal (SendLog_fields r) in
  let req := SendLog_request l r in
  Method req = Method built.1 ∧ URL req = URL built.1
  ∧ Header req !! "Content-Type" = Some ["application/json"]
  ∧ Header req !! "Api-Key" = Some [newRelicLicenseKey l]
  ∧ (∀ k, k ≠ "Content-Type" -> k ≠ "Api-Key" ->
          Header req !! k = Header built.1 !! k)
  ∧ Body req = Some json.1
  ∧ (built.2 = None -> json.2 = None ->
     SendLog l ctx r
     = match client_Do req with
       | (_, Some e) => Some e
       | (resp, None) =>
           if decide (StatusCode resp = 202) then None
           else Errorf_status (StatusCode resp)
       end).
Proof.
  intros built json req. subst built json req.
  unfold SendLog, SendLog_request, StatusAccepted.
  destruct (http_NewRequest MethodPost (newRelicEndpoint l)) as [req0 e1].
  destruct (json_Marshal (SendLog_fields r)) as [js e2]. simpl.
  split_and!; try reflexivity.
  - rewrite lookup_insert_ne by discriminate. apply lookup_insert_eq.
  - apply lookup_insert_eq.
  - intros k Hc Ha. by rewrite !lookup_insert_ne.
  - intros -> ->. destruct (client_Do _) as [resp [e3|]]; [done|].
    destruct (decide (StatusCode resp = 202)) as [Hs|Hs].
    + rewrite decide_False; [done|]. intros Hn. by apply Hn.
    + by rewrite decide_True.
Qed.

(** X5. Which error [SendLog] returns: the first one met, unchanged, in the
    order request, serialisation, round trip; and after a round trip that
    answered with another status than 202, an error naming that status in
    decimal. *)
Theorem SendLog_first_error (l : newRelicLogger) (ctx : Context) r :
  let e_req := (http_NewRequest MethodPost (newRelicEndpoint l)).2 in
  let e_json := (json_Marshal (SendLog_fields r)).2 in
  let e_do := (client_Do (SendLog_request l r)).2 in
  let status := StatusCode (client_Do (SendLog_request l r)).1 in
  (e_req ≠ None -> SendLog l ctx r = e_req)
  ∧ (e_req = None -> e_json ≠ None -> SendLog l ctx r = e_json)
  ∧ (e_req = None -> e_json = None -> e_do ≠ None ->
     SendLog l ctx r = e_do)
  ∧ (e_req = None -> e_json = None -> e_do = None -> status ≠ 202 ->
     SendLog l ctx r = Some ("unexpected status code: " +:+ pretty status)).
Proof.
  unfold SendLog, SendLog_request, StatusAccepted, Errorf_status.
  destruct (http_NewRequest MethodPost (newRelicEndpoint l))
    as [req [e1|]]; simpl.
  { split_and!; intros; congruence. }
  destruct (json_Marshal (SendLog_fields r)) as [js [e2|]]; simpl.
  { split_and!; intros; congruence. }
  destruct (client_Do _) as [resp [e3|]]; simpl.
  { split_and!; intros; congruence. }
  split_and!; try (intros; congruence).
  intros _ _ _ Hs. by rewrite decide_True.
Qed.

End NewRelicMore.

(** ** More on the counter and the fan-out handler *)

Section FanoutMore.

Context {Context W : Type} `{!@Slog Context W}.

Implicit Types (w : World Context W) (r : Record_) (ctx : Context).
Implicit Types (h : customHandler Context JSONHandler).

Lemma wrap_int_succ_pred z :
  is_int z -> wrap_int (wrap_int (z + 1) - 1) = z
              ∧ wrap_int (wrap_int (z - 1) + 1) = z.
Proof.
  intros Hz. unfold wrap_int. split.
  - replace ((z + 1 + 2 ^ 63) mod 2 ^ 64 - 2 ^ 63 - 1 + 2 ^ 63)
      with ((z + 1 + 2 ^ 63) mod 2 ^ 64 - 1) by lia.
    rewrite Zminus_mod_idemp_l.
    replace (z + 1 + 2 ^ 63 - 1) with (z + 2 ^ 63) by lia.
    apply (wrap_int_id z Hz).
  - replace ((z - 1 + 2 ^ 63) mod 2 ^ 64 - 2 ^ 63 + 1 + 2 ^ 63)
      with ((z - 1 + 2 ^ 63) mod 2 ^ 64 + 1) by lia.
    rewrite Zplus_mod_idemp_l.
    replace (z - 1 + 2 ^ 63 + 1) with (z + 2 ^ 63) by lia.
    apply (wrap_int_id z Hz).
Qed.

(** X6. [increment] and [decrement] undo each other on every counter value,
    the two ends of the [int] range included, and touch nothing but the
    counter. *)
Theorem increment_decrement_inverse w :
  is_int (counter w) ->
  decrement (increment w) = w ∧ increment (decrement w) = w.
Proof.
  intros Hz. destruct (wrap_int_succ_pred (counter w) Hz) as [H1 H2].
  destruct w as [wr bc gs cb ps k cs dc]. simpl in *.
  unfold increment, decrement, set_counter. simpl.
  by rewrite H1, H2.
Qed.

Lemma decay_body_counter w :
  is_int (counter w) -> 0 <= counter w ->
  decay_body w = set_counter (Z.max 0 (counter w - 1)) w.
Proof.
  intros Hz Hpos. unfold decay_body, get, decrement.
  destruct (Z.ltb_spec 0 (counter w)).
  - rewrite wrap_int_id by (unfold is_int, int_min, int_max in *; lia).
    f_equal. lia.
  - replace (Z.max 0 (counter w - 1)) with (counter w) by lia.
    by destruct w.
Qed.

(** X7. The leak of the bucket: with nothing else running, [n] turns of the
    decay loop take a counter [v >= 0] to [max 0 (v - n)] and change
    nothing else; after [v] turns the counter is 0 and stays there. *)
Theorem decay_run_counter (n : nat) w :
  is_int (counter w) -> 0 <= counter w ->
  decay_run n w = set_counter (Z.max 0 (counter w - Z.of_nat n)) w.
Proof.
  intros Hz Hpos. unfold decay_run. induction n as [|n IH].
  - simpl. replace (Z.max 0 (counter w - Z.of_nat 0)) with (counter w)
      by lia.
    by destruct w.
  - rewrite Nat.iter_succ, IH. rewrite decay_body_counter; simpl.
    + unfold set_counter. simpl. f_equal. lia.
    + unfold is_int, int_min, int_max in *. lia.
    + lia.
Qed.

(** X8. In every world a logger can reach, under any interleaving, the counter
    is between 0 and 6: the increments of line 44 never wrap around. *)
Theorem reachable_counter_bounds (out : option W)
    (targets : option (list (LogTarget Context))) w :
  reachable out targets w ->
  0 <= counter w <= 6 ∧ is_int (counter w)
  ∧ counter (increment w) = counter w + 1.
Proof.
  intros Hr. apply reachable_counter_inv in Hr as (_ & Hk & _).
  assert (Hz : is_int (counter w + 1))
    by (unfold is_int, int_min, int_max; lia).
  split; [done|]. split.
  - unfold is_int, int_min, int_max. lia.
  - unfold increment. simpl. by apply wrap_int_id.
Qed.

(** X10. A handler made from the logger's by any chain of [WithAttrs] and
    [WithGroup] fans out like the logger's own: [Handle] on it starts the
    same goroutines, for the same sinks and the same channel. *)
Theorem derived_same_fanout h0 h ctx r w :
  derived h0 h ->
  logTargets h = logTargets h0 ∧ errorChannel h = errorChannel h0
  ∧ goroutines (customHandler_Handle h ctx r w).1
    = goroutines (customHandler_Handle h0 ctx r w).1.
Proof.
  intros Hd.
  assert (Hs : logTargets h = logTargets h0
               ∧ errorChannel h = errorChannel h0).
  { induction Hd as [|h attrs _ IH|h name _ IH]; simpl; auto. }
  destruct Hs as [Ht Hc]. split; [done|]. split; [done|].
  rewrite !customHandler_Handle_spec. simpl. by rewrite Ht, Hc.
Qed.

Lemma Logger_Error_base_calls
    (logger : Logger (customHandler Context JSONHandler)) now pc msg args w :
  base_calls w `prefix_of`
    base_calls (Logger_Error logger now pc msg args w).
Proof.
  unfold Logger_Error, Logger_log. simpl.
  destruct (customHandler_Enabled _ _ _); simpl; [|done].
  rewrite customHandler_Handle_spec. simpl. by apply prefix_app_r.
Qed.

Lemma step_base_calls (logger : Logger (customHandler Context JSONHandler))
    w w' :
  step logger w w' -> base_calls w `prefix_of` base_calls w'.
Proof.
  intros Hstep.
  destruct Hstep as [h ctx r w Hd | i target ctx r ch w Hi
                    | i ch err w Hi Hch Hen | w Hc Hne
                    | now pc w Hc | w].
  - rewrite customHandler_Handle_spec. simpl. by apply prefix_app_r.
  - unfold run_SendLog. by destruct (target_SendLog target ctx r).
  - unfold push. by destruct (receiver_waiting w).
  - unfold recv_buf. by destruct (chan_buf w).
  - unfold consumer_step. destruct (consumer w) as [|err|[msg|]|];
      cbn [base_calls set_consumer]; try done.
    + unfold get. by destruct (5 <? counter w).
    + apply Logger_Error_base_calls.
  - unfold decay_step. destruct (decay w); simpl; try done.
    unfold get. by destruct (0 <? counter w).
Qed.

Lemma Logger_Error_writer
    (logger : Logger (customHandler Context JSONHandler)) now pc msg args w :
  let w' := Logger_Error logger now pc msg args w in
  (writer w' = writer w ∧ base_calls w' = base_calls w)
  ∨ (∃ r, base_calls w' = base_calls w ++ [r]
          ∧ writer w' =
              (Handle (handler (logger_handler logger)) Background r
                 (writer w)).1).
Proof.
  unfold Logger_Error, Logger_log. simpl.
  destruct (customHandler_Enabled _ _ _); simpl; [|by left].
  rewrite customHandler_Handle_spec. simpl. right. by eexists.
Qed.

(** A step either leaves the writer and the history alone, or is one call
    of the base handler's [Handle] that changes both together. *)
Lemma step_writer (logger : Logger (customHandler Context JSONHandler))
    w w' :
  step logger w w' ->
  (writer w' = writer w ∧ base_calls w' = base_calls w)
  ∨ (∃ h ctx r, derived (logger_handler logger) h
                ∧ base_calls w' = base_calls w ++ [r]
                ∧ writer w' = (Handle (handler h) ctx r (writer w)).1).
Proof.
  intros Hstep.
  destruct Hstep as [h ctx r w Hd | i target ctx r ch w Hi
                    | i ch err w Hi Hch Hen | w Hc Hne
                    | now pc w Hc | w].
  - right. exists h, ctx, r. rewrite customHandler_Handle_spec. by simpl.
  - left. unfold run_SendLog. by destruct (target_SendLog target ctx r).
  - left. unfold push. by destruct (receiver_waiting w).
  - left. unfold recv_buf. by destruct (chan_buf w).
  - unfold consumer_step. destruct (consumer w) as [|err|[msg|]|];
      cbn [base_calls writer set_consumer]; try by left.
    + left. unfold get. by destruct (5 <? counter w).
    + destruct (Logger_Error_writer logger now pc "Error in custom handler"
                  (error_args (Some msg)) w) as [Hsame|(r & Hb & Hw)].
      * by left.
      * right. exists (logger_handler logger), Background, r.
        split; [constructor|done].
  - left. unfold decay_step. destruct (decay w); simpl; try done.
    unfold get. by destruct (0 <? counter w).
Qed.

(** X11. The writer is touched by nothing but the base handler's [Handle],
    one call per record of the history. In every reachable world the
    writer is the writer [New] started with after the calls of the base
    handler's [Handle] on the records of the history, in order, each on the
    base handler of the logger's handler or of one made from it by
    [WithAttrs] and [WithGroup]. Along any run the history only grows at
    its end. A sink's goroutine returning or pushing, a receive and a turn
    of the decay loop change neither the writer nor the history. *)
Theorem writer_follows_base_calls (out : option W)
    (targets : option (list (LogTarget Context))) :
  let logger := (New out targets).1 in
  (∀ w, reachable out targets w ->
     ∃ calls : list (JSONHandler * Context * Record_),
       snd <$> calls = base_calls w
       ∧ writer w = replay calls (writer (New out targets).2)
       ∧ Forall (fun c => ∃ h, derived (logger_handler logger) h
                               ∧ c.1.1 = handler h) calls)
  ∧ (∀ w w', rtc (step logger) w w' ->
       base_calls w `prefix_of` base_calls w')
  ∧ (∀ w i target ctx r ch err,
       (writer (run_SendLog i target ctx r ch w) = writer w
        ∧ base_calls (run_SendLog i target ctx r ch w) = base_calls w)
       ∧ (writer (push i err w) = writer w
          ∧ base_calls (push i err w) = base_calls w)
       ∧ (writer (recv_buf w) = writer w
          ∧ base_calls (recv_buf w) = base_calls w)
       ∧ (writer (decay_step w) = writer w
          ∧ base_calls (decay_step w) = base_calls w)).
Proof.
  intros logger. split_and!.
  - intros w Hr. unfold reachable in Hr. fold logger in Hr.
    apply (rtc_ind_r (R := step logger)
             (fun w => ∃ calls : list (JSONHandler * Context * Record_),
                snd <$> calls = base_calls w
                ∧ writer w = replay calls (writer (New out targets).2)
                ∧ Forall (fun c => ∃ h, derived (logger_handler logger) h
                                        ∧ c.1.1 = handler h) calls)
             (New out targets).2); [| |exact Hr].
    + exists []. by split_and!.
    + intros y z _ Hstep (calls & Hc & Hw & Hall).
      destruct (step_writer logger y z Hstep)
        as [[Hsw Hsb]|(h & ctx & r & Hd & Hb & Hwz)].
      * exists calls. rewrite Hsw, Hsb. by split_and!.
      * exists (calls ++ [(handler h, ctx, r)]). split_and!.
        -- rewrite fmap_app, Hc, Hb. done.
        -- unfold replay in *. rewrite foldl_app. cbn [foldl fst snd].
           by rewrite <- Hw.
        -- apply Forall_app_2; [done|]. apply Forall_singleton.
           by exists h.
  - intros w w' Hr. induction Hr as [w|w w1 w2 Hstep _ IH]; [done|].
    etrans; [|exact IH]. by apply (step_base_calls logger).
  - intros w i target ctx r ch err. split_and!.
    + unfold run_SendLog. by destruct (target_SendLog target ctx r).
    + unfold run_SendLog. by destruct (target_SendLog target ctx r).
    + unfold push. by destruct (receiver_waiting w).
    + unfold push. by destruct (receiver_waiting w).
    + unfold recv_buf. by destruct (chan_buf w).
    + unfold recv_buf. by destruct (chan_buf w).
    + unfold decay_step. destruct (decay w); simpl; try done.
      unfold get. by destruct (0 <? counter w).
    + unfold decay_step. destruct (decay w); simpl; try done.
      unfold get. by destruct (0 <? counter w).
Qed.

End FanoutMore.

(** ** More on the logger and its goroutines *)

Section LoggerMore.

Context {Context W : Type} `{!@Slog Context W}.

Implicit Types (w : World Context W) (r : Record_) (ctx : Context).
Implicit Types (h : customHandler Context JSONHandler).
Implicit Types (logger : Logger (customHandler Context JSONHandler)).

Lemma started_tasks_ok h0 h ctx r :
  derived h0 h ->
  Forall (task_ok h0)
    ((fun target => Sending target ctx r (errorChannel h))
       <$> default [] (logTargets h)).
Proof.
  intros Hd. apply derived_same in Hd as [Ht Hc]. rewrite Ht, Hc.
  apply Forall_fmap, Forall_forall. intros target Hin. by split.
Qed.

Lemma Logger_Error_goroutines logger now pc msg args w :
  Forall (task_ok (logger_handler logger)) (goroutines w) ->
  Forall (task_ok (logger_handler logger))
    (goroutines (Logger_Error logger now pc msg args w)).
Proof.
  intros Hw. unfold Logger_Error, Logger_log. simpl.
  destruct (customHandler_Enabled _ _ _); simpl; [|done].
  rewrite customHandler_Handle_spec. simpl.
  apply Forall_app_2; [done|]. apply started_tasks_ok. constructor.
Qed.

(** Every step keeps [pool_inv]. *)
Lemma step_pool_inv logger w w' :
  step logger w w' ->
  pool_inv (logger_handler logger) w -> pool_inv (logger_handler logger) w'.
Proof.
  intros Hstep (Hg & Hp & Hb & Hc). unfold pool_inv.
  destruct Hstep as [h ctx r w Hd | i target ctx r ch w Hi
                    | i ch err w Hi Hch Hen | w Hc0 Hne
                    | now pc w Hc0 | w].
  - rewrite customHandler_Handle_spec. simpl.
    split_and!; try done. apply Forall_app_2; [done|].
    by apply started_tasks_ok.
  - pose proof (Forall_lookup_1 _ _ _ _ Hg Hi) as [Hch _].
    unfold run_SendLog.
    destruct (target_SendLog target ctx r) as [msg|]; simpl.
    + split_and!; try done. apply Forall_insert; [done|]. by split.
    + split_and!; try done. by apply Forall_delete.
  - pose proof (Forall_lookup_1 _ _ _ _ Hg Hi) as [_ Herr].
    unfold push. destruct (receiver_waiting w); simpl.
    + split_and!; try done.
      * by apply Forall_delete.
      * apply Forall_app_2; [done|]. by apply Forall_singleton.
    + split_and!; try done.
      * by apply Forall_delete.
      * apply Forall_app_2; [done|]. by apply Forall_singleton.
      * apply Forall_app_2; [done|]. by apply Forall_singleton.
  - unfold recv_buf. destruct (chan_buf w) as [|e rest]; [done|].
    apply Forall_cons in Hb as [He Hrest]. simpl. by split_and!.
  - unfold consumer_step. destruct (consumer w) as [|err|[msg|]|] eqn:Hcw.
    + done.
    + unfold get. by destruct (5 <? counter w).
    + pose proof (Logger_Error_frame logger now pc
                    "Error in custom handler"
                    (error_args (Some msg)) w) as (_&_&_&Hcb&Hps).
      cbn [goroutines pushed chan_buf consumer set_consumer].
      rewrite Hcb, Hps. split_and!; try done.
      by apply Logger_Error_goroutines.
    + done.
    + done.
  - unfold decay_step. destruct (decay w); simpl; try done.
    unfold get. by destruct (0 <? counter w).
Qed.

Lemma reachable_pool_inv out targets w :
  reachable out targets w ->
  pool_inv (logger_handler (New out targets).1) w.
Proof.
  unfold reachable. intros Hr.
  apply (rtc_ind_r (R := step (New out targets).1)
           (fun w => pool_inv (logger_handler (New out targets).1) w)
           (New out targets).2); [| |exact Hr].
  - unfold pool_inv. simpl. by split_and!.
  - intros y z _ Hstep Hy. by apply (step_pool_inv (New out targets).1 y).
Qed.

(** X12. Only non-nil errors travel: in every reachable world each error that
    went through the error channel is non-nil and so is the one the
    consumer holds, so the test of line 42 never fails in a run. *)
Theorem reachable_errors_non_nil (out : option W)
    (targets : option (list (LogTarget Context))) w :
  reachable out targets w ->
  Forall (fun err : error => err ≠ None) (pushed w)
  ∧ (∀ err, consumer w = Got err ∨ consumer w = Checked err -> err ≠ None).
Proof.
  intros Hr. apply reachable_pool_inv in Hr as (_ & Hp & _ & Hc).
  split; [done|]. intros err [Hg|Hg]; by rewrite Hg in Hc.
Qed.

(** X13. Every goroutine of the pool belongs to the logger: it was started for
    one of the sinks given to [New] and sends on the channel [New] made,
    also when the [Handle] that started it was called on a handler made by
    [WithAttrs] or [WithGroup], or by the error loop. *)
Theorem reachable_goroutines_belong (out : option W)
    (targets : option (list (LogTarget Context))) w i :
  reachable out targets w ->
  (∀ target ctx r ch,
     goroutines w !! i = Some (Sending target ctx r ch) ->
     ch = make_chan 0 ∧ target ∈ default [] targets)
  ∧ (∀ ch err,
       goroutines w !! i = Some (Pushing ch err) ->
       ch = make_chan 0 ∧ err ≠ None).
Proof.
  intros Hr. apply reachable_pool_inv in Hr as (Hg & _).
  split.
  - intros target ctx r ch Hi.
    exact (Forall_lookup_1 _ _ _ _ Hg Hi).
  - intros ch err Hi. exact (Forall_lookup_1 _ _ _ _ Hg Hi).
Qed.

Lemma consumer_step_rank logger now pc w :
  consumer w ≠ Receiving ->
  (consumer_rank (consumer (consumer_step logger now pc w))
   < consumer_rank (consumer w))%nat
  ∧ chan_buf (consumer_step logger now pc w) = chan_buf w
  ∧ goroutines w `prefix_of` goroutines (consumer_step logger now pc w).
Proof.
  intros Hc. unfold consumer_step.
  destruct (consumer w) as [|err|[msg|]|] eqn:Hcw.
  - done.
  - unfold get. destruct (5 <? counter w); simpl; split_and!; try done; lia.
  - pose proof (Logger_Error_frame logger now pc
                  "Error in custom handler"
                  (error_args (Some msg)) w) as (_&_&_&Hcb&_).
    cbn [goroutines chan_buf consumer set_consumer consumer_rank].
    rewrite Hcb. split_and!; [lia|done|].
    unfold Logger_Error, Logger_log. simpl.
    destruct (customHandler_Enabled _ _ _); simpl; [|done].
    rewrite customHandler_Handle_spec. simpl. by apply prefix_app_r.
  - simpl. split_and!; try done. lia.
  - simpl. split_and!; try done. lia.
Qed.

Lemma consumer_step_settles logger (now : time) (pc : Z) w :
  (consumer_rank (consumer (consumer_step logger now pc w))
   <= pred (consumer_rank (consumer w)))%nat
  ∧ chan_buf (consumer_step logger now pc w) = chan_buf w
  ∧ goroutines w `prefix_of` goroutines (consumer_step logger now pc w)
  ∧ rtc (consumer_only logger now pc) w (consumer_step logger now pc w).
Proof.
  destruct (decide (consumer w = Receiving)) as [Hc|Hc].
  - assert (Hw : consumer_step logger now pc w = w)
      by (unfold consumer_step; by rewrite Hc).
    rewrite Hw. split_and!; try done. rewrite Hc. simpl. lia.
  - destruct (consumer_step_rank logger now pc w Hc) as (Hlt & Hb & Hg).
    split_and!; try done; [lia|]. by apply rtc_once.
Qed.

Lemma consumer_only_steps logger (now : time) (pc : Z) w w' :
  rtc (consumer_only logger now pc) w w' -> rtc (step logger) w w'.
Proof.
  intros Hr. induction Hr as [w|w w1 w2 [Hc ->] _ IH]; [done|].
  eapply rtc_l; [|exact IH]. by apply step_consumer.
Qed.

(** X14. A push that is waiting is never stuck for good. From any reachable
    world in which a goroutine is at its push, run three statements of
    the error loop and nothing else (a statement at the receive does
    nothing): the consumer is then back at its receive, the goroutine is
    still at its push, and the push goes through, handing the error to
    the consumer. *)
Theorem pending_push_can_be_served (out : option W)
    (targets : option (list (LogTarget Context))) (now : time) (pc : Z)
    w i ch err :
  reachable out targets w ->
  goroutines w !! i = Some (Pushing ch err) ->
  let logger := (New out targets).1 in
  let w' :=
    consumer_step logger now pc
      (consumer_step logger now pc (consumer_step logger now pc w)) in
  rtc (consumer_only logger now pc) w w'
  ∧ reachable out targets w'
  ∧ consumer w' = Receiving
  ∧ goroutines w' !! i = Some (Pushing ch err)
  ∧ step logger w' (push i err w')
  ∧ consumer (push i err w') = Got err
  ∧ pushed (push i err w') = pushed w' ++ [err].
Proof.
  intros Hr Hi logger w'.
  destruct (reachable_counter_inv out targets w Hr) as [Hbuf _].
  destruct (reachable_pool_inv out targets w Hr) as [Hg _].
  pose proof (Forall_lookup_1 _ _ _ _ Hg Hi) as [Hch _].
  set (w1 := consumer_step logger now pc w) in *.
  set (w2 := consumer_step logger now pc w1) in *.
  destruct (consumer_step_settles logger now pc w) as (R1 & B1 & G1 & S1).
  destruct (consumer_step_settles logger now pc w1) as (R2 & B2 & G2 & S2).
  destruct (consumer_step_settles logger now pc w2) as (R3 & B3 & G3 & S3).
  fold w1 in R1, B1, G1, S1. fold w2 in R2, B2, G2, S2.
  fold w' in R3, B3, G3, S3.
  assert (Hrank : (consumer_rank (consumer w) <= 3)%nat)
    by (destruct (consumer w); simpl; lia).
  assert (Hc : consumer w' = Receiving).
  { destruct (consumer w'); simpl in R3; try done; lia. }
  assert (Hsteps : rtc (consumer_only logger now pc) w w').
  { etrans; [exact S1|]. etrans; [exact S2|exact S3]. }
  assert (Hi' : goroutines w' !! i = Some (Pushing ch err)).
  { eapply prefix_lookup_Some; [|exact G3].
    eapply prefix_lookup_Some; [|exact G2].
    eapply prefix_lookup_Some; [exact Hi|exact G1]. }
  assert (Hwait : receiver_waiting w' = true).
  { unfold receiver_waiting. apply bool_decide_eq_true.
    split; [done|]. by rewrite B3, B2, B1. }
  split_and!; try done.
  - unfold reachable in *. etrans; [exact Hr|].
    by apply (consumer_only_steps logger now pc).
  - apply (step_push _ i ch); [done|done|].
    unfold push_enabled. by rewrite Hwait.
  - unfold push. by rewrite Hwait.
Qed.



(** X16. A sink that fails is echoed in the local log. For a logger with one
    sink whose [SendLog] fails on [r], there is a run of [Handle], the
    sink's goroutine and the error loop after which the base handler has
    received [r] and then one error-level record carrying the sink's error,
    the counter is 1, and the echo itself has been started towards the
    same sink. *)
Theorem failing_sink_is_echoed (out : option W) (t : LogTarget Context)
    ctx r now pc (msg : string) :
  (∀ ctx, Enabled (NewJSONHandler {| AddSource := true; Level_opt := None |})
            ctx LevelError = true) ->
  target_SendLog t ctx r = Some msg ->
  let echo := {| Time := now; Message := "Error in custom handler";
                 Level_ := LevelError; PC := pc;
                 attrs := [ {| Key := "error";
                               Val := KindAny (AnyError (Some msg)) |} ] |} in
  ∃ w', reachable out (Some [t]) w'
        ∧ base_calls w' = [r; echo]
        ∧ pushed w' = [Some msg]
        ∧ counter w' = 1
        ∧ consumer w' = Receiving
        ∧ goroutines w' = [Sending t Background echo (make_chan 0)].
Proof.
  intros Hen Ht echo.
  set (lg := (New out (Some [t])).1).
  set (h := logger_handler lg).
  set (w0 := (New out (Some [t])).2).
  set (w1 := (customHandler_Handle h ctx r w0).1).
  set (w2 := run_SendLog 0 t ctx r (make_chan 0) w1).
  set (w3 := push 0 (Some msg) w2).
  set (w4 := consumer_step lg now pc w3).
  set (w5 := consumer_step lg now pc w4).
  set (w6 := consumer_step lg now pc w5).
  assert (E1 : goroutines w1 = [Sending t ctx r (make_chan 0)]
               ∧ base_calls w1 = [r] ∧ consumer w1 = Receiving
               ∧ chan_buf w1 = [] ∧ pushed w1 = [] ∧ counter w1 = 0).
  { subst w1. rewrite customHandler_Handle_spec. by simpl. }
  destruct E1 as (G1 & B1 & C1 & Q1 & P1 & K1).
  assert (E2 : goroutines w2 = [Pushing (make_chan 0) (Some msg)]
               ∧ base_calls w2 = [r] ∧ consumer w2 = Receiving
               ∧ chan_buf w2 = [] ∧ pushed w2 = [] ∧ counter w2 = 0).
  { subst w2. unfold run_SendLog. rewrite Ht. simpl. rewrite G1. by simpl. }
  destruct E2 as (G2 & B2 & C2 & Q2 & P2 & K2).
  assert (Hwait : receiver_waiting w2 = true).
  { unfold receiver_waiting. by apply bool_decide_eq_true. }
  assert (E3 : goroutines w3 = [] ∧ base_calls w3 = [r]
               ∧ consumer w3 = Got (Some msg) ∧ pushed w3 = [Some msg]
               ∧ counter w3 = 0).
  { subst w3. unfold push. rewrite Hwait. simpl. rewrite G2, P2. by simpl. }
  destruct E3 as (G3 & B3 & C3 & P3 & K3).
  assert (E4 : goroutines w4 = [] ∧ base_calls w4 = [r]
               ∧ consumer w4 = Checked (Some msg) ∧ pushed w4 = [Some msg]
               ∧ counter w4 = 0).
  { subst w4. unfold consumer_step, get. rewrite C3, K3. by simpl. }
  destruct E4 as (G4 & B4 & C4 & P4 & K4).
  assert (E5 : goroutines w5 = [Sending t Background echo (make_chan 0)]
               ∧ base_calls w5 = [r; echo]
               ∧ consumer w5 = Logged ∧ pushed w5 = [Some msg]
               ∧ counter w5 = 0).
  { subst w5. unfold consumer_step. rewrite C4.
    rewrite Logger_Error_enabled by apply Hen.
    rewrite customHandler_Handle_spec. simpl. rewrite G4, B4. by simpl. }
  destruct E5 as (G5 & B5 & C5 & P5 & K5).
  assert (E6 : goroutines w6 = [Sending t Background echo (make_chan 0)]
               ∧ base_calls w6 = [r; echo]
               ∧ consumer w6 = Receiving ∧ pushed w6 = [Some msg]
               ∧ counter w6 = 1).
  { subst w6. unfold consumer_step. rewrite C5. simpl. rewrite K5.
    by split_and!. }
  destruct E6 as (G6 & B6 & C6 & P6 & K6).
  exists w6. split; [|by split_and!].
  unfold reachable. fold lg w0.
  apply rtc_l with w1; [apply (step_Handle lg h); constructor|].
  apply rtc_l with w2;
    [apply (step_SendLog lg 0 t ctx r); by rewrite G1|].
  apply rtc_l with w3.
  { apply (step_push lg 0 (make_chan 0)); [by rewrite G2|done|].
    unfold push_enabled. by rewrite Hwait. }
  apply rtc_l with w4; [apply step_consumer; by rewrite C3|].
  apply rtc_l with w5; [apply step_consumer; by rewrite C4|].
  apply rtc_once. apply step_consumer. by rewrite C5.
Qed.

(** X17. A sink that succeeds leaves no trace. For a logger with one sink
    whose [SendLog] returns nil on [r], once the sink's goroutine has run
    the pool is empty again, nothing went through the error channel, the
    counter is still 0 and the base handler has received [r] and nothing
    else. *)
Theorem successful_sink_leaves_no_trace (out : option W)
    (t : LogTarget Context) ctx r :
  target_SendLog t ctx r = None ->
  let w1 := (customHandler_Handle (logger_handler (New out (Some [t])).1)
               ctx r (New out (Some [t])).2).1 in
  let w2 := run_SendLog 0 t ctx r (make_chan 0) w1 in
  reachable out (Some [t]) w2
  ∧ goroutines w1 = [Sending t ctx r (make_chan 0)]
  ∧ goroutines w2 = [] ∧ pushed w2 = [] ∧ chan_buf w2 = []
  ∧ base_calls w2 = [r] ∧ counter w2 = 0 ∧ consumer w2 = Receiving.
Proof.
  intros Ht w1 w2.
  assert (G1 : goroutines w1 = [Sending t ctx r (make_chan 0)]).
  { subst w1. rewrite customHandler_Handle_spec. by simpl. }
  split_and!.
  - unfold reachable.
    apply rtc_l with w1.
    { apply (step_Handle (New out (Some [t])).1
               (logger_handler (New out (Some [t])).1)). constructor. }
    apply rtc_once. apply (step_SendLog _ 0 t ctx r). by rewrite G1.
  - exact G1.
  - subst w2. unfold run_SendLog. rewrite Ht. simpl. by rewrite G1.
  - subst w2 w1. unfold run_SendLog. rewrite Ht.
    rewrite customHandler_Handle_spec. by simpl.
  - subst w2 w1. unfold run_SendLog. rewrite Ht.
    rewrite customHandler_Handle_spec. by simpl.
  - subst w2 w1. unfold run_SendLog. rewrite Ht.
    rewrite customHandler_Handle_spec. by simpl.
  - subst w2 w1. unfold run_SendLog. rewrite Ht.
    rewrite customHandler_Handle_spec. by simpl.
  - subst w2 w1. unfold run_SendLog. rewrite Ht.
    rewrite customHandler_Handle_spec. by simpl.
Qed.


End LoggerMore.

(** ** The example program, run *)

Import Demo.

Example SendLog_fields_rec1_user :
  SendLog_fields Demo.rec1 !! "user" = Some (AnyString "ann").
Proof. reflexivity. Qed.

Example SendLog_rec1_status_500 :
  SendLog Demo.relic tt Demo.rec1
  = Some "unexpected status code: 500".
Proof. reflexivity. Qed.

Example world_blocked_fields :
  goroutines Demo.world_blocked
  = [Pushing (make_chan 0) (Some "connection refused")]
  ∧ consumer Demo.world_blocked = Got (Some "connection refused")
  ∧ base_calls Demo.world_blocked = [Demo.rec1; Demo.rec1].
Proof. by vm_compute. Qed.

(** A sink that stays down: the first six errors are logged and counted,
    the seventh is dropped. *)
Example seven_failures :
  let turn := errorLoop_body logger0 {| unix_sec := 5; unix_nsec := 0 |} 7
                (Some "connection refused") in
  counter (turn (turn (turn (turn (turn (turn world0)))))) = 6
  ∧ length (writer (turn (turn (turn (turn (turn (turn world0))))))) = 6%nat
  ∧ turn (turn (turn (turn (turn (turn (turn world0))))))
    = turn (turn (turn (turn (turn (turn world0))))).
Proof. by vm_compute. Qed.

Lemma world_blocked_reachable :
  reachable None (Some [Demo.down]) Demo.world_blocked.
Proof.
  unfold reachable.
  set (lg := (New None (Some [Demo.down])).1).
  set (h := logger_handler lg).
  set (ch := errorChannel h).
  set (w1 := (customHandler_Handle h tt Demo.rec1 Demo.world0).1).
  set (w2 := run_SendLog 0 Demo.down tt Demo.rec1 ch w1).
  set (w3 := push 0 (Some "connection refused") w2).
  set (w4 := (customHandler_Handle h tt Demo.rec1 w3).1).
  apply rtc_l with w1; [apply (step_Handle lg h); constructor|].
  apply rtc_l with w2; [by apply (step_SendLog lg 0 Demo.down)|].
  apply rtc_l with w3; [by apply (step_push lg 0 ch)|].
  apply rtc_l with w4; [apply (step_Handle lg h); constructor|].
  apply rtc_once. by apply (step_SendLog lg 0 Demo.down).
Qed.

(** C5 as the specification has it fails: the channel of [New] has no
    buffer, and in [world_blocked] a sink goroutine is at its push while
    the consumer is busy with the previous error, so the push cannot go
    through. *)
Lemma errorChannel_push_blocks :
  chan_cap (errorChannel (logger_handler Demo.logger0)) = 0%nat
  ∧ ¬ push_never_blocks None (Some [Demo.down]).
Proof.
  split; [reflexivity|]. intros Hnever.
  specialize (Hnever Demo.world_blocked 0%nat (Some "connection refused")
                world_blocked_reachable eq_refl).
  vm_compute in Hnever. discriminate.
Qed.

Lemma errorLoop_body_spec_witness :
  let w' :=
    errorLoop_body Demo.logger0 {| unix_sec := 5; unix_nsec := 0 |} 7
      (Some "connection refused") Demo.world0 in
  is_int (counter Demo.world0)
  ∧ counter w' = 1 ∧ writer w' = ["Error in custom handler"]
  ∧ base_calls w' =
      [ {| Time := {| unix_sec := 5; unix_nsec := 0 |};
           Message := "Error in custom handler"; Level_ := LevelError;
           PC := 7;
           attrs := [ {| Key := "error";
                         Val := KindAny
                                  (AnyError (Some "connection refused")) |} ]
        |} ].
Proof.
  assert (Hint : is_int (counter Demo.world0)).
  { unfold is_int, int_min, int_max. simpl. lia. }
  assert (Hen : ∀ ctx : unit,
             Enabled (NewJSONHandler {| AddSource := true; Level_opt := None |})
               ctx LevelError = true).
  { intros ctx. vm_compute. reflexivity. }
  split; [exact Hint|].
  destruct (errorLoop_body_spec None
              (Some [Demo.down]) {| unix_sec := 5; unix_nsec := 0 |} 7
              (Some "connection refused") Demo.world0
              Hen Hint) as [Hlog _].
  destruct Hlog as (Hk & Hb & Hw); [simpl; lia|discriminate|].
  split; [exact Hk|]. split; [exact Hw|exact Hb].
Defined.


Lemma SendLog_fields_two_attrs_witness :
  "user" ≠ "level"
  ∧ SendLog_fields Demo.rec1 !! "user" = Some (AnyString "ann")
  ∧ SendLog_fields Demo.rec1 !! "level" = Some (AnyInt64 7).
Proof.
  assert (Hne : "user" ≠ "level") by discriminate.
  split; [exact Hne|].
  apply (SendLog_fields_two_attrs Demo.rec1 "user" (KindString "ann")
           "level" (KindInt64 7) eq_refl Hne).
Defined.

Lemma SendLog_fields_attr_overrides_reserved_witness :
  SendLog_fields Demo.rec1 !! "level" = Some (AnyInt64 7).
Proof.
  apply (SendLog_fields_attr_overrides_reserved Demo.rec1
           [ {| Key := "user"; Val := KindString "ann" |} ]
           {| Key := "level"; Val := KindInt64 7 |} [] eq_refl).
  - simpl. apply not_elem_of_nil.
  - simpl. apply elem_of_cons. right. apply elem_of_cons. right.
    apply elem_of_cons. by left.
Defined.

Lemma WithAttrs_WithGroup_new_handler_witness :
  let h := logger_handler Demo.logger0 in
  let σ : gmap loc _ := {[ 1%positive := h ]} in
  ∃ q σ', WithAttrs_ptr 1%positive [] σ = Some (q, σ')
          ∧ q ≠ 1%positive ∧ σ' !! 1%positive = Some h.
Proof.
  intros h σ.
  destruct (WithAttrs_WithGroup_new_handler σ 1%positive h [] "g"
              (lookup_singleton_eq _ _)) as [(q & σ' & Hq & _ & Hne & _ & Hp & _) _].
  exists q, σ'. split; [exact Hq|]. split; [exact Hne|exact Hp].
Defined.

Lemma no_sinks_no_error_traffic_witness :
  goroutines
    (customHandler_Handle (logger_handler (New None None).1) tt Demo.rec1
       (New None None).2).1 = []
  ∧ pushed
      (customHandler_Handle (logger_handler (New None None).1) tt Demo.rec1
         (New None None).2).1 = []
  ∧ writer
      (customHandler_Handle (logger_handler (New None None).1) tt Demo.rec1
         (New None None).2).1 = ["started"].
Proof.
  destruct (no_sinks_no_error_traffic None None (or_introl eq_refl))
    as [Hcall Hreach].
  destruct (Hreach
              (customHandler_Handle (logger_handler (New None None).1) tt
                 Demo.rec1 (New None None).2).1) as (Hg & Hp & _).
  - apply rtc_once.
    apply (step_Handle (New None None).1 (logger_handler (New None None).1)).
    constructor.
  - split; [exact Hg|]. split; [exact Hp|].
    destruct (Hcall (logger_handler (New None None).1) tt Demo.rec1
                (New None None).2 (derived_refl _))
      as (_ & _ & _ & _ & Hw & _).
    exact Hw.
Defined.

(** ** The further properties, on the example program *)

Lemma increment_decrement_inverse_witness :
  is_int int_max
  ∧ decrement (increment (set_counter int_max world0))
    = set_counter int_max world0.
Proof.
  assert (Hint : is_int int_max) by (unfold is_int, int_min, int_max; lia).
  split; [exact Hint|].
  apply (proj1 (increment_decrement_inverse (set_counter int_max world0)
                  Hint)).
Defined.

Lemma decay_run_counter_witness :
  counter (decay_run 5 (set_counter 3 world0)) = 0.
Proof.
  assert (Hint : is_int 3) by (unfold is_int, int_min, int_max; lia).
  assert (Hpos : 0 <= 3) by lia.
  rewrite (decay_run_counter 5 (set_counter 3 world0) Hint Hpos).
  reflexivity.
Defined.

Lemma reachable_counter_bounds_witness :
  0 <= counter world_blocked <= 6.
Proof.
  apply (reachable_counter_bounds None (Some [down]) world_blocked
           world_blocked_reachable).
Defined.

Lemma derived_same_fanout_witness :
  goroutines
    (customHandler_Handle
       (customHandler_WithGroup
          (customHandler_WithAttrs (logger_handler logger0)
             [ {| Key := "user"; Val := KindString "ann" |} ]) "req")
       tt rec1 world0).1
  = goroutines (customHandler_Handle (logger_handler logger0) tt rec1 world0).1.
Proof.
  apply (derived_same_fanout (H := slog) (logger_handler logger0)
           (customHandler_WithGroup
              (customHandler_WithAttrs (logger_handler logger0)
                 [ {| Key := "user"; Val := KindString "ann" |} ]) "req")
           tt rec1 world0).
  apply (derived_WithGroup (H := slog)).
  apply (derived_WithAttrs (H := slog)).
  apply (derived_refl (H := slog)).
Defined.


Lemma reachable_errors_non_nil_witness :
  Forall (fun err : error => err ≠ None) (pushed world_blocked).
Proof.
  apply (reachable_errors_non_nil None (Some [down]) world_blocked
           world_blocked_reachable).
Defined.

Lemma reachable_goroutines_belong_witness :
  make_chan 0 = make_chan 0 ∧ Some "connection refused" ≠ None.
Proof.
  apply (proj2 (reachable_goroutines_belong None (Some [down])
                  world_blocked 0%nat world_blocked_reachable)
           (make_chan 0) (Some "connection refused")).
  reflexivity.
Defined.

Lemma pending_push_can_be_served_witness :
  let at5 := {| unix_sec := 5; unix_nsec := 0 |} in
  let w' :=
    consumer_step logger0 at5 7
      (consumer_step logger0 at5 7 (consumer_step logger0 at5 7 world_blocked))
  in
  consumer w' = Receiving
  ∧ consumer (push 0 (Some "connection refused") w')
    = Got (Some "connection refused").
Proof.
  intros at5 w'.
  destruct (pending_push_can_be_served None (Some [down]) at5 7
              world_blocked 0%nat (make_chan 0) (Some "connection refused")
              world_blocked_reachable eq_refl)
    as (_ & _ & Hc & _ & _ & Hg & _).
  split; [exact Hc|exact Hg].
Defined.


Lemma failing_sink_is_echoed_witness :
  ∃ w', reachable None (Some [relic_sink]) w'
        ∧ pushed w' = [Some "unexpected status code: 500"]
        ∧ counter w' = 1.
Proof.
  assert (Hen : ∀ ctx : unit,
             Enabled (NewJSONHandler {| AddSource := true; Level_opt := None |})
               ctx LevelError = true).
  { intros ctx. vm_compute. reflexivity. }
  assert (Ht : target_SendLog relic_sink tt rec1
               = Some "unexpected status code: 500") by reflexivity.
  destruct (failing_sink_is_echoed None relic_sink tt rec1
              {| unix_sec := 5; unix_nsec := 0 |} 7
              "unexpected status code: 500" Hen Ht)
    as (w' & Hr & _ & Hp & Hk & _).
  exists w'. split; [exact Hr|]. split; [exact Hp|exact Hk].
Defined.

Lemma successful_sink_leaves_no_trace_witness :
  reachable None (Some [up])
    (run_SendLog 0 up tt rec1 (make_chan 0)
       (customHandler_Handle (logger_handler (New None (Some [up])).1)
          tt rec1 (New None (Some [up])).2).1).
Proof.
  apply (successful_sink_leaves_no_trace None up tt rec1 eq_refl).
Defined.

